(** * dataclass-wizard: environment lookups and diagnostics

    A shallow embedding of [dataclass_wizard/environ/lookups.py] (the
    [Env] registry, [clean], [try_cleaned], [lookup_exact] and the three
    lookup strategies) and of [dataclass_wizard/errors.py] (the error
    classes and their [message] properties), with the properties that
    the specification states about them.

    Conventions of the embedding:
    - a Python [str] is the [string] of its UTF-8 bytes, in which a
      hyphen or an underscore is one byte that is part of no other
      character; [str.upper] and [str.lower], which follow the Unicode
      tables, are parameters (the class [Str.Casing]), and the casing
      of the ASCII letters is the instance used to run examples;
    - [os.environ] and the [dict]s used as maps without regard to order
      are [gmap string string]; the cached [set] of names is a
      [gset string]; a [dict] whose insertion order is visible (keyword
      arguments printed by [message], a mapping written entry by entry
      into [os.environ]) is an association list;
    - the class-level caches of [Env] and the live environment make up
      an explicit [State]; code that reads or fills them is written in a
      small state-and-exception monad. *)

From Stdlib Require Import Ascii String.
From stdpp Require Import base option list gmap strings pretty.

Local Open Scope string_scope.

(** ** Strings *)

Module Str.

(** [c] is one of [A] .. [Z]. *)
Definition is_upper (c : ascii) : bool :=
  let n := nat_of_ascii c in (65 <=? n)%nat && (n <=? 90)%nat.

(** [c] is one of [a] .. [z]. *)
Definition is_lower (c : ascii) : bool :=
  let n := nat_of_ascii c in (97 <=? n)%nat && (n <=? 122)%nat.

Definition lower_char (c : ascii) : ascii :=
  if is_upper c then ascii_of_nat (nat_of_ascii c + 32) else c.

Definition upper_char (c : ascii) : ascii :=
  if is_lower c then ascii_of_nat (nat_of_ascii c - 32) else c.

(** Lower and upper case of the ASCII letters of a string; the other
    bytes are kept. *)
Fixpoint ascii_lower (s : string) : string :=
  match s with
  | EmptyString => EmptyString
  | String c s' => String (lower_char c) (ascii_lower s')
  end.

Fixpoint ascii_upper (s : string) : string :=
  match s with
  | EmptyString => EmptyString
  | String c s' => String (upper_char c) (ascii_upper s')
  end.

(** [str.upper()] and [str.lower()]. They follow the Unicode tables of
    the Python runtime, which are no part of the program: here they are
    any two functions. *)
Class Casing := {
  upper : string -> string;
  lower : string -> string;
}.

(** [s.replace(c, '')] for a one-character pattern [c]. *)
Fixpoint remove_char (c : ascii) (s : string) : string :=
  match s with
  | EmptyString => EmptyString
  | String d s' =>
      if Ascii.eqb d c then remove_char c s' else String d (remove_char c s')
  end.

(** [c] occurs in [s]. *)
Fixpoint occurs (c : ascii) (s : string) : bool :=
  match s with
  | EmptyString => false
  | String d s' => Ascii.eqb d c || occurs c s'
  end.

(** [sep.join(l)]. *)
Fixpoint join (sep : string) (l : list string) : string :=
  match l with
  | [] => EmptyString
  | [x] => x
  | x :: l' => x ++ sep ++ join sep l'
  end.

(** Truth value of a [str]: the empty string is false. *)
Definition truthy (s : string) : bool :=
  match s with EmptyString => false | _ => true end.

End Str.

(** The casing of the ASCII letters. On a string of ASCII characters it
    is what [str.upper()] and [str.lower()] return; it is used to run
    the model on examples. *)
#[export] Instance ascii_casing : Str.Casing := {|
  Str.upper := Str.ascii_upper;
  Str.lower := Str.ascii_lower;
|}.

(** [clean] of [lookups.py]:
    [s.replace('-', '').replace('_', '').lower()]. *)
Definition clean {casing : Str.Casing} (s : string) : string :=
  Str.lower (Str.remove_char "_" (Str.remove_char "-" s)).

(** ** The process state read and written by [lookups.py] *)

(** [os.environ] together with the class-level caches of [Env]. A cache
    that has not been computed yet is [None]. *)
Record State := mkState {
  environ : gmap string string;
  var_names_cache : option (gset string);
  accessed_cleaned_to_env : bool;
  cleaned_to_env_cache : option (gmap string string);
}.

(** The state of a process that has not touched [Env] yet. *)
Definition fresh (e : gmap string string) : State :=
  mkState e None false None.

Definition set_environ (e : gmap string string) (st : State) : State :=
  mkState e (var_names_cache st) (accessed_cleaned_to_env st)
    (cleaned_to_env_cache st).

Definition set_var_names_cache (s : gset string) (st : State) : State :=
  mkState (environ st) (Some s) (accessed_cleaned_to_env st)
    (cleaned_to_env_cache st).

Definition set_accessed (b : bool) (st : State) : State :=
  mkState (environ st) (var_names_cache st) b (cleaned_to_env_cache st).

Definition set_cleaned_cache (d : gmap string string) (st : State) : State :=
  mkState (environ st) (var_names_cache st) (accessed_cleaned_to_env st)
    (Some d).

(** Exceptions that the modelled code can raise. *)
Inductive exn :=
| KeyError (key : string)
| TypeError (msg : string).

Inductive outcome (A : Type) :=
| Ok (a : A)
| Raise (e : exn).
Arguments Ok {A} a.
Arguments Raise {A} e.

(** Computations over the state that may raise. The state reached when
    an exception is raised is kept: Python does not roll back. *)
Definition M (A : Type) : Type := State -> outcome A * State.

Definition ret {A} (a : A) : M A := fun st => (Ok a, st).

Definition raise {A} (e : exn) : M A := fun st => (Raise e, st).

Definition bind {A B} (m : M A) (k : A -> M B) : M B :=
  fun st =>
    match m st with
    | (Ok a, st') => k a st'
    | (Raise e, st') => (Raise e, st')
    end.

Definition get : M State := fun st => (Ok st, st).

Definition modify (f : State -> State) : M unit := fun st => (Ok tt, f st).

Declare Scope py_scope.
Delimit Scope py_scope with py.
Notation "x <- m ;; k" := (bind m (fun x => k))
  (at level 100, m at next level, right associativity) : py_scope.
Notation "m ;;; k" := (bind m (fun _ => k))
  (at level 100, right associativity) : py_scope.
Local Open Scope py_scope.

(** What a lookup returns: the value of a variable, or the [MISSING]
    sentinel of [dataclasses]. *)
Inductive result :=
| Value (s : string)
| MISSING.

(** [environ[key]]: the live value, or [KeyError]. *)
Definition environ_getitem (key : string) : M string :=
  st <- get ;;
  match environ st !! key with
  | Some v => ret v
  | None => raise (KeyError key)
  end.

(** The order in which a Python [set] hands out its elements is not
    specified. An [Iteration] is one such order for every set: some
    arrangement of exactly its elements. Python may hand out two equal
    sets in two orders when they were built in different ways; what is
    proved holds for every [Iteration] and relates no two such sets. *)
Record Iteration := mkIteration {
  iterate :> gset string -> list string;
  iterate_perm : forall X, iterate X ≡ₚ elements X;
}.

(** One iteration order, used to run the model on examples. *)
Definition sorted_iteration : Iteration :=
  mkIteration elements (fun X => reflexivity (elements X)).

(** [d.update(pairs)] and the dict comprehension: entries are written
    one after the other, a later one replacing an earlier one with the
    same key. *)
Definition dict_update (d : gmap string string)
    (pairs : list (string * string)) : gmap string string :=
  foldl (fun acc kv => <[kv.1 := kv.2]> acc) d pairs.

(** [(clean(var), var) for var in vars]. *)
Definition cleaned_pairs {casing : Str.Casing} (vars : list string)
    : list (string * string) :=
  map (fun var => (clean var, var)) vars.

(** A [dict] with [str] keys, in insertion order. *)
Definition dict (V : Type) : Type := list (string * V).

Definition keys {V} (d : dict V) : list string := map fst d.

(** [d[k] = v]: the value of an existing key is replaced where it
    stands, a new key goes to the end. *)
Fixpoint dict_set {V} (k : string) (v : V) (d : dict V) : dict V :=
  match d with
  | [] => [(k, v)]
  | (k', v') :: d' =>
      if String.eqb k' k then (k, v) :: d' else (k', v') :: dict_set k v d'
  end.

(** [d.get(k)] for a [dict] in insertion order. *)
Fixpoint dict_get {V} (k : string) (d : list (string * V)) : option V :=
  match d with
  | [] => None
  | (k', v) :: d' => if String.eqb k' k then Some v else dict_get k d'
  end.

(** [env.update(d)] for two [dict]s: [env[k] = d[k]] for each key of
    [d], in the order of [d]. *)
Definition ordered_update {V} (env d : dict V) : dict V :=
  foldl (fun acc k =>
           match dict_get k d with
           | Some v => dict_set k v acc
           | None => acc
           end) env (keys d).

(** [Environ] of [lookups.py], [Dict[str, Optional[str]]]: what a
    dotenv file yields. A line without [=] gives a key whose value is
    [None]. *)
Definition Environ : Type := dict (option string).

(** [set(env)] for a [dict]: the set of its keys. *)
Definition key_set {V} (d : dict V) : gset string := list_to_set (keys d).

(** [str | Collection[str]], the argument of [lookup_exact]. *)
Inductive StrCollection :=
| Single (s : string)
| Collection (l : list string).

(** [EnvFileType]: a file name, a boolean, or a sequence of names. *)
Inductive EnvFileType :=
| OneFile (f : string)
| BoolFile (b : bool)
| Files (l : list string).

Section Lookups.

Context {casing : Str.Casing}.

(** [os.name]. *)
Variable os_name : string.

(** The order in which sets are iterated. *)
Variable iteration : Iteration.

(** Modelled from the spec: [to_snake_case] of [utils/string_conv.py],
    which is not among the sources, is taken as a parameter. *)
Variable to_snake_case : string -> string.

(** The variables that [dotenv.dotenv_values(dotenv.find_dotenv(f))]
    yields for the file name [f]: the file system and the [dotenv]
    package are outside the program. *)
Variable dotenv_file : string -> Environ.

(** Modelled from the spec: [cached_class_property] of [decorators.py]
    is not among the sources. The first access evaluates the body and
    stores the result; later accesses return the stored object.

    [Env.var_names], with body [set(environ)]. *)
Definition var_names : M (gset string) :=
  st <- get ;;
  match var_names_cache st with
  | Some names => ret names
  | None =>
      let names := dom (environ st) in
      modify (set_var_names_cache names) ;;;
      ret names
  end.

(** [Env.cleaned_to_env], with body
    [cls._accessed_cleaned_to_env = True;
     return {clean(var): var for var in cls.var_names}]. *)
Definition cleaned_to_env : M (gmap string string) :=
  st <- get ;;
  match cleaned_to_env_cache st with
  | Some d => ret d
  | None =>
      modify (set_accessed true) ;;;
      names <- var_names ;;
      let d := dict_update ∅ (cleaned_pairs (iteration names)) in
      modify (set_cleaned_cache d) ;;;
      ret d
  end.

(** [Env.reload(env)]. Only [set(env)], the keys of [env], is used,
    whatever the type of its values. [env_vars.update(new_vars)]
    changes the cached set itself. *)
Definition reload {V} (env : gmap string V) : M unit :=
  env_vars <- var_names ;;
  let new_vars := dom env ∖ env_vars in
  modify (set_var_names_cache (env_vars ∪ new_vars)) ;;;
  st <- get ;;
  if accessed_cleaned_to_env st then
    d <- cleaned_to_env ;;
    modify (set_cleaned_cache
              (dict_update d (cleaned_pairs (iteration new_vars))))
  else ret tt.

(** [Env.reload()] with the default argument, which is the
    [os.environ] object itself. *)
Definition reload_default : M unit :=
  st <- get ;; reload (environ st).

(** [Env.reload(env)] for a [dict] in insertion order: [set(env)] is
    the set of its keys. *)
Definition reload_dict {V} (env : dict V) : M unit :=
  reload (list_to_map env : gmap string V).

(** The loop of [Env.dotenv_values]: [env.update(...)] per file. *)
Fixpoint dotenv_values_loop (files : list string) (env : Environ) : Environ :=
  match files with
  | [] => env
  | f :: files' => dotenv_values_loop files' (ordered_update env (dotenv_file f))
  end.

(** [Env.dotenv_values(files)]. Iterating over [False] is a
    [TypeError]. *)
Definition dotenv_values (files : EnvFileType) : M Environ :=
  match files with
  | OneFile f => ret (dotenv_values_loop [f] [])
  | BoolFile true => ret (dotenv_values_loop [".env"] [])
  | BoolFile false => raise (TypeError "'bool' object is not iterable")
  | Files l => ret (dotenv_values_loop l [])
  end.

(** The key under which [os.environ] keeps a variable: on [nt] the name
    in upper case, elsewhere the name as it is written ([encodekey] of
    the standard module [os]). *)
Definition encode_key (key : string) : string :=
  if String.eqb os_name "nt" then Str.upper key else key.

(** [environ[key] = value]. [os.environ] takes [str] values only: for
    [None] it raises [TypeError] and writes nothing. *)
Definition environ_setitem (key : string) (value : option string) : M unit :=
  match value with
  | Some v =>
      modify (fun st => set_environ (<[encode_key key := v]> (environ st)) st)
  | None => raise (TypeError "str expected, not NoneType")
  end.

(** [environ.update(d)] for a [dict] [d]:
    [for key in d: environ[key] = d[key]], in the order of [d]; the
    entries written before an exception stay written. *)
Fixpoint environ_update_loop (d : Environ) (ks : list string) : M unit :=
  match ks with
  | [] => ret tt
  | k :: ks' =>
      match dict_get k d with
      | Some v => environ_setitem k v ;;; environ_update_loop d ks'
      | None => raise (KeyError k)
      end
  end.

Definition environ_update (d : Environ) : M unit :=
  environ_update_loop d (keys d).

(** [Env.update_with_dotenv(files, dotenv_values)]. *)
Definition update_with_dotenv (files : EnvFileType)
    (values : option Environ) : M unit :=
  values <- match values with
            | None => dotenv_values files
            | Some d => ret d
            end ;;
  reload_dict values ;;;
  environ_update values.

(** [try_cleaned(key)]. *)
Definition try_cleaned (key : string) : M result :=
  d <- cleaned_to_env ;;
  match d !! clean key with
  | Some key' => v <- environ_getitem key' ;; ret (Value v)
  | None => ret MISSING
  end.

(** [if v in Env.var_names: return environ[v]], continuing with
    [otherwise] when the test fails. *)
Definition return_if_known (v : string) (otherwise : M result) : M result :=
  names <- var_names ;;
  if decide (v ∈ names) then x <- environ_getitem v ;; ret (Value x)
  else otherwise.

(** The [for v in var] loop of [lookup_exact]; [norm] is [str.upper]
    on [nt] and the identity elsewhere. *)
Fixpoint lookup_exact_loop (norm : string -> string) (var : list string)
    : M result :=
  match var with
  | [] => ret MISSING
  | v :: var' =>
      return_if_known (norm v) (lookup_exact_loop norm var')
  end.

(** [lookup_exact(var)]; which of the two definitions is in force is
    decided by [os.name == 'nt']. *)
Definition lookup_exact (var : StrCollection) : M result :=
  if String.eqb os_name "nt" then
    match var with
    | Single s => return_if_known (Str.upper s) (ret MISSING)
    | Collection l => lookup_exact_loop Str.upper l
    end
  else
    match var with
    | Single s => return_if_known s (ret MISSING)
    | Collection l => lookup_exact_loop id l
    end.

(** [with_screaming_snake_case(field_name)]. *)
Definition with_screaming_snake_case (field_name : string) : M result :=
  let upper_key := Str.upper field_name in
  return_if_known upper_key
    (return_if_known field_name
       (try_cleaned field_name)).

(** [with_snake_case(field_name)]. *)
Definition with_snake_case (field_name : string) : M result :=
  return_if_known field_name
    (let upper_key := Str.upper field_name in
     return_if_known upper_key
       (try_cleaned field_name)).

(** [with_pascal_or_camel_case(field_name)]. *)
Definition with_pascal_or_camel_case (field_name : string) : M result :=
  return_if_known field_name
    (let snake_key := to_snake_case field_name in
     let upper_key := Str.upper snake_key in
     return_if_known upper_key
       (return_if_known snake_key
          (try_cleaned field_name))).

End Lookups.

(** ** Reading the registry *)

Section Registry.

Context {casing : Str.Casing}.

(** The set that [Env.var_names] evaluates to in a state: the cached
    set, or the keys of the live environment when nothing is cached. *)
Definition names_of (st : State) : gset string :=
  match var_names_cache st with
  | Some names => names
  | None => dom (environ st)
  end.

(** The dict that the comprehension of [Env.cleaned_to_env] builds from
    a set of names. *)
Definition build_index (iteration : Iteration) (names : gset string)
    : gmap string string :=
  dict_update ∅ (cleaned_pairs (iteration names)).

(** The dict that [Env.cleaned_to_env] evaluates to in a state. *)
Definition index_of (iteration : Iteration) (st : State)
    : gmap string string :=
  match cleaned_to_env_cache st with
  | Some d => d
  | None => build_index iteration (names_of st)
  end.

(** What the loop of [environ.update(d)] makes of the live environment
    [e] over the keys [ks], and how it ends. *)
Fixpoint environ_written (os_name : string) (d : Environ) (ks : list string)
    (e : gmap string string) : outcome unit * gmap string string :=
  match ks with
  | [] => (Ok tt, e)
  | k :: ks' =>
      match dict_get k d with
      | Some (Some v) =>
          environ_written os_name d ks' (<[encode_key os_name k := v]> e)
      | Some None => (Raise (TypeError "str expected, not NoneType"), e)
      | None => (Raise (KeyError k), e)
      end
  end.


(** The first element of [l] that is a known name: the candidate that a
    chain of [if v in Env.var_names] tests stops at. *)
Definition first_known (names : gset string) (l : list string)
    : option string :=
  snd <$> list_find (fun v => v ∈ names) l.

(** The value read at a known name [v]: [environ[v]]. *)
Definition live_value (st : State) (v : string) : outcome result :=
  match environ st !! v with
  | Some x => Ok (Value x)
  | None => Raise (KeyError v)
  end.

(** The cleaned index of a state agrees with its cached names: every
    entry maps the cleaned form of a known name to that name, every
    known name has an entry under its cleaned form, and the flag
    [_accessed_cleaned_to_env] tells whether the index was built. *)
Definition index_consistent (st : State) : Prop :=
  match cleaned_to_env_cache st with
  | None => accessed_cleaned_to_env st = false
  | Some d =>
      accessed_cleaned_to_env st = true /\
      exists names, var_names_cache st = Some names /\
        (forall k v, d !! k = Some v -> clean v = k /\ v ∈ names) /\
        (forall v, v ∈ names -> is_Some (d !! clean v))
  end.

(** The state in which [Env.cleaned_to_env] leaves the registry. *)
Definition after_cleaned_to_env (iteration : Iteration) (st : State) : State :=
  match cleaned_to_env_cache st with
  | Some _ => st
  | None =>
      mkState (environ st) (Some (names_of st)) true
        (Some (build_index iteration (names_of st)))
  end.

(** The state in which [Env.reload(env)] leaves the registry, where
    [new_keys] is [set(env)]. *)
Definition after_reload (iteration : Iteration) (new_keys : gset string)
    (st : State) : State :=
  let env_vars := names_of st in
  let new_vars := new_keys ∖ env_vars in
  let names := env_vars ∪ new_vars in
  mkState (environ st) (Some names) (accessed_cleaned_to_env st)
    (if accessed_cleaned_to_env st then
       Some (dict_update
               (match cleaned_to_env_cache st with
                | Some d => d
                | None => build_index iteration names
                end)
               (cleaned_pairs (iteration new_vars)))
     else cleaned_to_env_cache st).

(** States that a process can be in: it starts with nothing cached, the
    live environment may change at any time, and the registry is used
    through [Env.var_names], [Env.cleaned_to_env], [Env.reload] and
    [Env.update_with_dotenv] (the lookup functions touch the state only
    through the first two). *)
Inductive reachable (it : Iteration) : State -> Prop :=
| reachable_fresh e : reachable it (fresh e)
| reachable_environ e st :
    reachable it st -> reachable it (set_environ e st)
| reachable_var_names st :
    reachable it st -> reachable it (var_names st).2
| reachable_cleaned_to_env st :
    reachable it st -> reachable it (cleaned_to_env it st).2
| reachable_reload (env : gmap string string) st :
    reachable it st -> reachable it (reload it env st).2
| reachable_update_with_dotenv os_name df files values st :
    reachable it st ->
    reachable it (update_with_dotenv os_name it df files values st).2.


(** ** The lookups, as the specification words them *)

(** The state after [Env.var_names] has been read. *)
Definition with_names_cached (st : State) : State :=
  set_var_names_cache (names_of st) st.

(** The name that [lookup_exact] compares with the known names: the
    upper-cased input where the platform keeps names in upper case
    ([os.name == 'nt']), the input itself elsewhere. *)
Definition platform_name (os_name : string) (s : string) : string :=
  if String.eqb os_name "nt" then Str.upper s else s.

(** The names a call of [lookup_exact] tries, in order. *)
Definition names_to_try (var : StrCollection) : list string :=
  match var with
  | Single s => [s]
  | Collection l => l
  end.

(** The live value of the first name that is known, [MISSING] when none
    is. *)
Definition first_hit (st : State) (candidates : list string)
    : outcome result :=
  match first_known (names_of st) candidates with
  | Some v => live_value st v
  | None => Ok MISSING
  end.

(** The candidates of the pascal/camel-first strategy, in order: the
    field name, its snake-cased form in upper case, its snake-cased form
    in lower case. *)
Definition pascal_or_camel_candidates (to_snake_case : string -> string)
    (field_name : string) : list string :=
  [field_name;
   Str.upper (to_snake_case field_name);
   Str.lower (to_snake_case field_name)].

(** The cleaned-index fallback: the live value of the name that the
    index holds for the cleaned key, [MISSING] when it holds none. *)
Definition cleaned_hit (iteration : Iteration) (st : State) (key : string)
    : outcome result :=
  match index_of iteration st !! clean key with
  | Some v => live_value st v
  | None => Ok MISSING
  end.

(** Modelled from the spec: [to_snake_case] of [utils/string_conv.py] is
    not among the sources. The specification says it turns camel and
    Pascal case boundaries into words in lower case separated by
    underscores, [myEnvVar] becoming [my_env_var]. A boundary is an
    upper-case letter that follows a character that is not one. *)
Fixpoint snake_from (after_word_char : bool) (s : string) : string :=
  match s with
  | EmptyString => EmptyString
  | String c s' =>
      let rest :=
        String (Str.lower_char c) (snake_from (negb (Str.is_upper c)) s') in
      if Str.is_upper c && after_word_char then String "_" rest else rest
  end.

Definition to_snake_case_spec (s : string) : string := snake_from false s.

End Registry.

(** ** The diagnostics of [errors.py] *)

(** The line feed of the templates. *)
Definition nl : string := String (ascii_of_nat 10) EmptyString.

(** What the error classes ask of the Python runtime and of the modules
    that are not among the sources. [PyObj] is the type of Python
    objects (values, classes, exceptions). Each operation is a function:
    printing an object twice prints the same text. *)
Class Runtime (PyObj : Type) := {
  (** [repr(o)], [str(o)] and the truth value of [o] *)
  py_repr : PyObj -> string;
  py_str : PyObj -> string;
  py_truthy : PyObj -> bool;
  (** [type(o)] *)
  py_type : PyObj -> PyObj;
  (** [repr(s)] for a [str] *)
  repr_str : string -> string;
  (** [json.dumps(o)] for an object, and for a [dict] with [str] keys *)
  json_dumps : PyObj -> string;
  json_dumps_object : list (string * PyObj) -> string;
  (** [type_name] of [utils/type_helper.py] *)
  type_name : PyObj -> string;
  (** [normalize] of [utils/string_conv.py] *)
  normalize : string -> string;
  (** the [__name__] of the key transform that [get_loader(cls)] of
      [loaders.py] holds for a class, [LetterCase] members unwrapped *)
  key_transform_name : PyObj -> string;
}.

(** Modelled from the spec: [normalize] of [utils/string_conv.py] is not
    among the sources. The specification has it remove every hyphen and
    underscore and fold the case to lower case. *)
Definition normalize_spec {casing : Str.Casing} (s : string) : string :=
  Str.lower (Str.remove_char "_" (Str.remove_char "-" s)).

Section Errors.

Context {PyObj : Type} `{Runtime PyObj}.

(** A value held in a [kwargs] dict: an object passed in by the
    caller, or a [str] that the error class made itself. *)
Inductive value :=
| Obj (o : PyObj)
| Text (s : string).

Definition repr_value (v : value) : string :=
  match v with
  | Obj o => py_repr o
  | Text s => repr_str s
  end.

Definition str_value (v : value) : string :=
  match v with
  | Obj o => py_str o
  | Text s => s
  end.

(** [repr] of a [list] of [str]. *)
Definition repr_str_list (l : list string) : string :=
  "[" ++ Str.join ", " (map repr_str l) ++ "]".

(** An [Optional[str]] in a format field: [None] prints as [None]. *)
Definition format_optional (o : option string) : string :=
  match o with
  | Some s => s
  | None => "None"
  end.

(** The tail that [message] adds for a non-empty [kwargs]:
    [sep + sep.join(f'{k}: {v}' ...)], with [show] the conversion of
    the values. *)
Definition kwargs_tail (show : value -> string) (kwargs : dict value)
    : string :=
  match kwargs with
  | [] => EmptyString
  | _ =>
      let sep := nl ++ "  " in
      sep ++ Str.join sep (map (fun kv => kv.1 ++ ": " ++ show kv.2) kwargs)
  end.

(** *** [ParseError] *)

Record ParseError := mkParseError {
  pe_obj : PyObj;
  pe_obj_type : PyObj;
  pe_ann_type : PyObj;
  pe_base_error : PyObj;
  pe_kwargs : dict value;
  pe__class_name : option string;
  pe__default_class_name : option string;
  pe__field_name : option string;
  pe__json_object : option PyObj;
}.

(** [ParseError.__init__]; an argument left at its default [None] is
    [None] here. *)
Definition ParseError_init (base_err obj ann_type : PyObj)
    (_default_class : option PyObj) (_field_name : option string)
    (_json_object : option PyObj) (kwargs : dict value) : ParseError :=
  mkParseError obj (py_type obj) ann_type base_err kwargs None
    (match _default_class with
     | Some c => if py_truthy c then Some (type_name c) else None
     | None => None
     end)
    _field_name _json_object.

(** The property [class_name]:
    [self._class_name or self._default_class_name]. *)
Definition pe_class_name (e : ParseError) : option string :=
  match pe__class_name e with
  | Some s => if Str.truthy s then Some s else pe__default_class_name e
  | None => pe__default_class_name e
  end.

(** The setters of [class_name], [field_name] and [json_object]: each
    assigns only while the attribute is [None]. *)
Definition pe_set_class_name (cls : PyObj) (e : ParseError) : ParseError :=
  match pe__class_name e with
  | None =>
      mkParseError (pe_obj e) (pe_obj_type e) (pe_ann_type e)
        (pe_base_error e) (pe_kwargs e) (Some (type_name cls))
        (pe__default_class_name e) (pe__field_name e) (pe__json_object e)
  | Some _ => e
  end.

Definition pe_set_field_name (name : option string) (e : ParseError)
    : ParseError :=
  match pe__field_name e with
  | None =>
      mkParseError (pe_obj e) (pe_obj_type e) (pe_ann_type e)
        (pe_base_error e) (pe_kwargs e) (pe__class_name e)
        (pe__default_class_name e) name (pe__json_object e)
  | Some _ => e
  end.

Definition pe_set_json_object (json_obj : option PyObj) (e : ParseError)
    : ParseError :=
  match pe__json_object e with
  | None =>
      mkParseError (pe_obj e) (pe_obj_type e) (pe_ann_type e)
        (pe_base_error e) (pe_kwargs e) (pe__class_name e)
        (pe__default_class_name e) (pe__field_name e) json_obj
  | Some _ => e
  end.

Definition pe_set_kwargs (kwargs : dict value) (e : ParseError)
    : ParseError :=
  mkParseError (pe_obj e) (pe_obj_type e) (pe_ann_type e)
    (pe_base_error e) kwargs (pe__class_name e)
    (pe__default_class_name e) (pe__field_name e) (pe__json_object e).

(** [if self.json_object]: [None] is false. *)
Definition optional_truthy (o : option PyObj) : bool :=
  match o with
  | Some x => py_truthy x
  | None => false
  end.

(** [ParseError.message]. The property writes
    [self.kwargs['json_object']], so it returns the changed object
    along with the text. *)
Definition ParseError_message (e : ParseError) : string * ParseError :=
  let msg :=
    "Failure parsing field `" ++ format_optional (pe__field_name e)
    ++ "` in class `" ++ format_optional (pe_class_name e)
    ++ "`. Expected a type " ++ type_name (pe_ann_type e)
    ++ ", got " ++ type_name (pe_obj_type e) ++ "." ++ nl
    ++ "  value: " ++ py_repr (pe_obj e) ++ nl
    ++ "  error: " ++ py_str (pe_base_error e) in
  let e' :=
    match pe__json_object e with
    | Some j =>
        if py_truthy j
        then pe_set_kwargs
               (dict_set "json_object" (Text (json_dumps j)) (pe_kwargs e)) e
        else e
    | None => e
    end in
  (msg ++ kwargs_tail repr_value (pe_kwargs e'), e').

(** *** [ExtraData] *)

Record ExtraData := mkExtraData {
  ed_class_name : string;
  ed_extra_kwargs : PyObj;
  ed_field_names : PyObj;
}.

Definition ExtraData_init (cls extra_kwargs field_names : PyObj)
    : ExtraData :=
  mkExtraData (type_name cls) extra_kwargs field_names.

Definition ExtraData_message (e : ExtraData) : string :=
  ed_class_name e ++ ".__init__() received extra keyword arguments:" ++ nl
  ++ "  extras: " ++ py_repr (ed_extra_kwargs e) ++ nl
  ++ "  fields: " ++ py_repr (ed_field_names e) ++ nl
  ++ "  resolution: specify a value for `extra` in the Meta "
  ++ "config for the class, to control how extra keyword "
  ++ "arguments are handled.".

(** *** [MissingFields] *)

(** A [dataclasses.Field], as far as the error classes read it;
    [None] stands for the [MISSING] sentinel. *)
Record Field := mkField {
  f_name : string;
  f_default : option PyObj;
  f_default_factory : option PyObj;
}.

(** [s in l] for a list of [str]. *)
Definition str_in (s : string) (l : list string) : bool :=
  existsb (String.eqb s) l.

(** [x is MISSING]. *)
Definition is_MISSING (x : option PyObj) : bool :=
  match x with
  | None => true
  | Some _ => false
  end.

Record MissingFields := mkMissingFields {
  mf_obj : dict PyObj;
  mf_fields : list string;
  mf_missing_fields : list string;
  mf_base_error : PyObj;
  mf_kwargs : dict value;
  mf_class_name : string;
}.

(** [[f.name for f in cls_fields if f.name not in self.fields
      and f.default is MISSING and f.default_factory is MISSING]]. *)
Definition missing_fields_of (fields : list string) (cls_fields : list Field)
    : list string :=
  map f_name
    (List.filter
       (fun f => negb (str_in (f_name f) fields)
                 && is_MISSING (f_default f)
                 && is_MISSING (f_default_factory f))
       cls_fields).

(** The test that guards the hint:
    [next((f for f in self.missing_fields
           if normalize(f) in normalized_json_keys), None)],
    taken as a truth value: the first such field name, which is true
    unless it is the empty string. *)
Definition transform_suspected (obj : dict PyObj)
    (missing_fields : list string) : bool :=
  let normalized_json_keys := map normalize (keys obj) in
  match List.find (fun f => str_in (normalize f) normalized_json_keys)
          missing_fields with
  | Some f => Str.truthy f
  | None => false
  end.

Definition resolution_text : string :=
  "For more details, please see https://github.com/rnag/dataclass-wizard/issues/54".

(** The two entries that [__init__] writes into [kwargs] when the
    test succeeds. *)
Definition add_transform_hint (cls : PyObj) (kwargs : dict value)
    : dict value :=
  dict_set "resolution" (Text resolution_text)
    (dict_set "key transform" (Text (key_transform_name cls ++ "()"))
       kwargs).

(** [MissingFields.__init__]. *)
Definition MissingFields_init (base_err : PyObj) (obj : dict PyObj)
    (cls : PyObj) (cls_kwargs : dict PyObj) (cls_fields : list Field)
    (kwargs : dict value) : MissingFields :=
  let fields := keys cls_kwargs in
  let missing_fields := missing_fields_of fields cls_fields in
  let kwargs :=
    if transform_suspected obj missing_fields
    then add_transform_hint cls kwargs
    else kwargs in
  mkMissingFields obj fields missing_fields base_err kwargs (type_name cls).

(** The message up to the [kwargs]. *)
Definition MissingFields_headline (e : MissingFields) : string :=
  "Failure calling constructor method of class `" ++ mf_class_name e
  ++ "`. Missing values for required dataclass fields." ++ nl
  ++ "  have fields: " ++ repr_str_list (mf_fields e) ++ nl
  ++ "  missing fields: " ++ repr_str_list (mf_missing_fields e) ++ nl
  ++ "  input JSON object: " ++ json_dumps_object (mf_obj e) ++ nl
  ++ "  error: " ++ py_str (mf_base_error e).

(** [MissingFields.message]. *)
Definition MissingFields_message (e : MissingFields) : string :=
  MissingFields_headline e ++ kwargs_tail str_value (mf_kwargs e).

(** *** [UnknownJSONKey] *)

Record UnknownJSONKey := mkUnknownJSONKey {
  uk_json_key : string;
  uk_obj : dict PyObj;
  uk_fields : list string;
  uk_kwargs : dict value;
  uk_class_name : string;
}.

Definition UnknownJSONKey_init (json_key : string) (obj : dict PyObj)
    (cls : PyObj) (cls_fields : list Field) (kwargs : dict value)
    : UnknownJSONKey :=
  mkUnknownJSONKey json_key obj (map f_name cls_fields) kwargs
    (type_name cls).

Definition UnknownJSONKey_message (e : UnknownJSONKey) : string :=
  "A JSON key is missing from the dataclass schema for class `"
  ++ uk_class_name e ++ "`." ++ nl
  ++ "  unknown key: " ++ repr_str (uk_json_key e) ++ nl
  ++ "  dataclass fields: " ++ repr_str_list (uk_fields e) ++ nl
  ++ "  input JSON object: " ++ json_dumps_object (uk_obj e)
  ++ kwargs_tail repr_value (uk_kwargs e).

(** *** [MissingData] *)

(** A [ParseError] whose [obj] is [None] and whose [base_error] is
    the error itself; the template prints neither, so the record
    keeps the attributes that [message] reads. *)
Record MissingData := mkMissingData {
  md__class_name : option string;
  md__default_class_name : option string;
  md__field_name : option string;
  md__json_object : option PyObj;
  md_kwargs : dict value;
  md_nested_class_name : string;
}.

(** [MissingData.__init__(nested_cls, **kwargs)]: the keyword
    arguments named [_default_class], [_field_name] and
    [_json_object] reach the parameters of [ParseError.__init__]. *)
Definition MissingData_init (nested_cls : PyObj)
    (_default_class : option PyObj) (_field_name : option string)
    (_json_object : option PyObj) (kwargs : dict value) : MissingData :=
  mkMissingData None
    (match _default_class with
     | Some c => if py_truthy c then Some (type_name c) else None
     | None => None
     end)
    _field_name _json_object kwargs (type_name nested_cls).

Definition md_class_name (e : MissingData) : option string :=
  match md__class_name e with
  | Some s => if Str.truthy s then Some s else md__default_class_name e
  | None => md__default_class_name e
  end.

(** [repr] of an [Optional[str]]. *)
Definition repr_optional (o : option string) : string :=
  match o with
  | Some s => repr_str s
  | None => "None"
  end.

Definition MissingData_message (e : MissingData) : string :=
  "Failure loading class `" ++ format_optional (md_class_name e)
  ++ "`. Missing value for field (expected a dict, got None)" ++ nl
  ++ "  dataclass field: " ++ repr_optional (md__field_name e) ++ nl
  ++ "  resolution: annotate the field as `Optional["
  ++ md_nested_class_name e ++ "]` or `" ++ md_nested_class_name e
  ++ " | None`"
  ++ kwargs_tail repr_value (md_kwargs e).

(** *** [MissingVars] *)

Record MissingVars := mkMissingVars {
  mv_class_name : string;
  mv_fields : string;
  mv_def_resolution : string;
  mv_init_resolution : string;
  mv_prefix : string;
}.

(** [MissingVars.__init__]; an element of [missing_vars] is
    [(name, type, default)]. *)
Definition MissingVars_init (cls : PyObj)
    (missing_vars : list (string * string * PyObj)) : MissingVars :=
  let indent := "    " in
  let class_name := type_name cls in
  let fields :=
    Str.join nl (map (fun f => indent ++ "- " ++ f.1.1) missing_vars) in
  let def_resolution :=
    Str.join nl
      (("class " ++ class_name ++ ":")
       :: map (fun f => indent ++ f.1.1 ++ ": " ++ f.1.2 ++ " = "
                        ++ py_repr f.2) missing_vars) in
  let init_vars :=
    Str.join ", " (map (fun f => f.1.1 ++ "=" ++ py_repr f.2) missing_vars) in
  let init_resolution :=
    "instance = " ++ class_name ++ "(" ++ init_vars ++ ")" in
  let num_fields := length missing_vars in
  let prefix :=
    if (1 <? num_fields)%nat
    then "There are " ++ pretty num_fields ++ " required fields"
    else "There is " ++ pretty num_fields ++ " required field" in
  mkMissingVars class_name fields def_resolution init_resolution prefix.

Definition MissingVars_message (e : MissingVars) : string :=
  mv_prefix e ++ " in class `" ++ mv_class_name e
  ++ "` missing in the Environment:" ++ nl
  ++ mv_fields e ++ nl ++ nl
  ++ "resolution #1: set a default value for any optional fields, as below."
  ++ nl ++ nl
  ++ mv_def_resolution e
  ++ nl ++ nl ++ "..." ++ nl
  ++ "resolution #2: pass in values for required fields to "
  ++ mv_class_name e ++ ".__init__():" ++ nl ++ nl
  ++ "    " ++ mv_init_resolution e.

(** *** [JSONWizardError] *)

(** The concrete subclasses of the abstract base class. *)
Inductive JSONWizardError :=
| IsParseError (e : ParseError)
| IsExtraData (e : ExtraData)
| IsMissingFields (e : MissingFields)
| IsUnknownJSONKey (e : UnknownJSONKey)
| IsMissingData (e : MissingData)
| IsMissingVars (e : MissingVars).

(** The property [message] of an error, with the object as the call
    leaves it. *)
Definition message (e : JSONWizardError) : string * JSONWizardError :=
  match e with
  | IsParseError e =>
      let (msg, e') := ParseError_message e in (msg, IsParseError e')
  | IsExtraData e' => (ExtraData_message e', e)
  | IsMissingFields e' => (MissingFields_message e', e)
  | IsUnknownJSONKey e' => (UnknownJSONKey_message e', e)
  | IsMissingData e' => (MissingData_message e', e)
  | IsMissingVars e' => (MissingVars_message e', e)
  end.

(** [str(e)] is [e.message]. *)
Definition __str__ (e : JSONWizardError) : string * JSONWizardError :=
  message e.

(** The text of the call of [message] that comes after [n] earlier
    calls on the same object. *)
Definition message_after (n : nat) (e : JSONWizardError) : string :=
  (message (Nat.iter n (fun e => (message e).2) e)).1.

End Errors.

Arguments value PyObj : clear implicits.
Arguments Field PyObj : clear implicits.
Arguments ParseError PyObj : clear implicits.
Arguments ExtraData PyObj : clear implicits.
Arguments MissingFields PyObj : clear implicits.
Arguments UnknownJSONKey PyObj : clear implicits.
Arguments MissingData PyObj : clear implicits.
Arguments JSONWizardError PyObj : clear implicits.

(** A small runtime to run the diagnostics on examples: objects are
    integers, strings, classes given by their name, and exceptions given
    by their text. *)
Inductive sample_obj :=
| SInt (n : Z)
| SStr (s : string)
| SClass (name : string)
| SExc (text : string).

Definition sample_quote (s : string) : string := "'" ++ s ++ "'".

Definition sample_text (o : sample_obj) : string :=
  match o with
  | SInt n => pretty n
  | SStr s => s
  | SClass name => "<class '" ++ name ++ "'>"
  | SExc text => text
  end.

#[export] Instance sample_runtime : Runtime sample_obj := {|
  py_repr o := match o with SStr s => sample_quote s | _ => sample_text o end;
  py_str := sample_text;
  py_truthy o :=
    match o with
    | SInt n => negb (n =? 0)%Z
    | SStr s => Str.truthy s
    | _ => true
    end;
  py_type o :=
    match o with
    | SInt _ => SClass "int"
    | SStr _ => SClass "str"
    | SClass _ => SClass "type"
    | SExc _ => SClass "Exception"
    end;
  repr_str := sample_quote;
  json_dumps := sample_text;
  json_dumps_object d :=
    "{" ++ Str.join ", "
             (map (fun kv => sample_quote kv.1 ++ ": " ++ sample_text kv.2) d)
    ++ "}";
  type_name o := match o with SClass name => name | _ => sample_text o end;
  normalize := normalize_spec (casing := ascii_casing);
  key_transform_name _ := "to_snake_case";
|}.


(** ** What the lookups can see of a state *)

Section Observation.

Context {casing : Str.Casing}.

(** The live environment, the known names and the cleaned index: a
    lookup reads nothing else of the state. *)
Definition observe (iteration : Iteration) (st : State)
    : gmap string string * gset string * gmap string string :=
  (environ st, names_of st, index_of iteration st).


(** The calls a caller can make to resolve a name. *)
Inductive lookup_call :=
| CallLookupExact (var : StrCollection)
| CallTryCleaned (key : string)
| CallScreamingSnake (field_name : string)
| CallSnake (field_name : string)
| CallPascalOrCamel (field_name : string).

Definition run_lookup (os_name : string) (iteration : Iteration)
    (to_snake_case : string -> string) (c : lookup_call) : M result :=
  match c with
  | CallLookupExact var => lookup_exact os_name var
  | CallTryCleaned key => try_cleaned iteration key
  | CallScreamingSnake f => with_screaming_snake_case iteration f
  | CallSnake f => with_snake_case iteration f
  | CallPascalOrCamel f => with_pascal_or_camel_case iteration to_snake_case f
  end.

End Observation.

(** *** Facts about characters and strings *)

Lemma lower_char_idem c : Str.lower_char (Str.lower_char c) = Str.lower_char c.
Proof. by destruct c as [[] [] [] [] [] [] [] []]. Qed.

Lemma ascii_lower_idem s :
  Str.ascii_lower (Str.ascii_lower s) = Str.ascii_lower s.
Proof. induction s as [|c s IH]; simpl; [done|]. by rewrite lower_char_idem, IH. Qed.

Lemma remove_char_absent c s :
  Str.occurs c s = false -> Str.remove_char c s = s.
Proof.
  induction s as [|d s IH]; simpl; [done|].
  intros [Hd Hs]%orb_false_elim. rewrite Hd. by rewrite IH.
Qed.

Lemma occurs_remove_char c s : Str.occurs c (Str.remove_char c s) = false.
Proof.
  induction s as [|d s IH]; simpl; [done|].
  destruct (Ascii.eqb d c) eqn:Hd; simpl; [done|]. by rewrite Hd.
Qed.

Lemma occurs_remove_other c d s :
  Str.occurs c s = false -> Str.occurs c (Str.remove_char d s) = false.
Proof.
  induction s as [|e s IH]; simpl; [done|].
  intros [He Hs]%orb_false_elim.
  destruct (Ascii.eqb e d); simpl; [auto|]. rewrite He. auto.
Qed.

(** Lower-casing the ASCII letters creates neither a hyphen nor an
    underscore. *)
Lemma lower_char_hyphen c :
  Ascii.eqb (Str.lower_char c) "-" = Ascii.eqb c "-".
Proof. by destruct c as [[] [] [] [] [] [] [] []]. Qed.

Lemma lower_char_underscore c :
  Ascii.eqb (Str.lower_char c) "_" = Ascii.eqb c "_".
Proof. by destruct c as [[] [] [] [] [] [] [] []]. Qed.

Lemma occurs_ascii_lower_hyphen s :
  Str.occurs "-" (Str.ascii_lower s) = Str.occurs "-" s.
Proof. induction s as [|c s IH]; simpl; [done|]. by rewrite lower_char_hyphen, IH. Qed.

Lemma occurs_ascii_lower_underscore s :
  Str.occurs "_" (Str.ascii_lower s) = Str.occurs "_" s.
Proof. induction s as [|c s IH]; simpl; [done|]. by rewrite lower_char_underscore, IH. Qed.

(** C9. The normalization function [clean] is idempotent: for every
    string [s], cleaning an already cleaned string changes nothing,
    where [clean] removes every hyphen and underscore and lower-cases
    the result. Of [str.lower] this uses that lower-casing a string
    twice gives what lower-casing it once gives, and that lower-casing
    brings neither a hyphen nor an underscore into a string that has
    none. *)
Theorem clean_idempotent {casing : Str.Casing}
    (Hidem : forall t, Str.lower (Str.lower t) = Str.lower t)
    (Hhyphen : forall t, Str.occurs "-" t = false ->
                         Str.occurs "-" (Str.lower t) = false)
    (Hunderscore : forall t, Str.occurs "_" t = false ->
                             Str.occurs "_" (Str.lower t) = false)
    (s : string) :
  clean (clean s) = clean s.
Proof.
  unfold clean at 1.
  rewrite (remove_char_absent "-").
  2:{ unfold clean. apply Hhyphen, occurs_remove_other, occurs_remove_char. }
  rewrite (remove_char_absent "_").
  2:{ unfold clean. apply Hunderscore, occurs_remove_char. }
  unfold clean. apply Hidem.
Qed.

(** An instance: the casing of the ASCII letters. *)
Lemma clean_idempotent_witness :
  (forall t, Str.ascii_lower (Str.ascii_lower t) = Str.ascii_lower t) /\
  (forall t, Str.occurs "-" t = false ->
             Str.occurs "-" (Str.ascii_lower t) = false) /\
  (forall t, Str.occurs "_" t = false ->
             Str.occurs "_" (Str.ascii_lower t) = false) /\
  clean (casing := ascii_casing) (clean "My-Env_Var") = clean "My-Env_Var".
Proof.
  assert (H1 : forall t, Str.ascii_lower (Str.ascii_lower t) = Str.ascii_lower t)
    by exact ascii_lower_idem.
  assert (H2 : forall t, Str.occurs "-" t = false ->
                         Str.occurs "-" (Str.ascii_lower t) = false).
  { intros t Ht. by rewrite occurs_ascii_lower_hyphen. }
  assert (H3 : forall t, Str.occurs "_" t = false ->
                         Str.occurs "_" (Str.ascii_lower t) = false).
  { intros t Ht. by rewrite occurs_ascii_lower_underscore. }
  split; [exact H1|]. split; [exact H2|]. split; [exact H3|].
  exact (clean_idempotent (casing := ascii_casing) H1 H2 H3 "My-Env_Var").
Defined.

(** ** The registry *)

Lemma var_names_run st :
  var_names st = (Ok (names_of st), set_var_names_cache (names_of st) st).
Proof.
  destruct st as [e [names|] a c]; reflexivity.
Qed.

Lemma names_of_set_var_names_cache s st :
  names_of (set_var_names_cache s st) = s.
Proof. reflexivity. Qed.

Lemma names_of_set_environ e st :
  is_Some (var_names_cache st) -> names_of (set_environ e st) = names_of st.
Proof. destruct st as [e0 [names|] a c]; intros [? ?]; naive_solver. Qed.

(** *** Writing a sequence of entries into a dict *)

Lemma dict_update_snoc d ps k v :
  dict_update d (ps ++ [(k, v)]) = <[k := v]> (dict_update d ps).
Proof. unfold dict_update. by rewrite foldl_app. Qed.

Lemma dict_update_lookup_absent d ps k :
  k ∉ ps.*1 -> dict_update d ps !! k = d !! k.
Proof.
  induction ps as [|[k' v'] ps IH] using rev_ind; [done|].
  rewrite fmap_app, not_elem_of_app. intros [Hps Hk]. simpl in Hk.
  rewrite dict_update_snoc, lookup_insert_ne by set_solver. auto.
Qed.

Lemma dict_update_lookup_present d ps k :
  k ∈ ps.*1 -> exists v, (k, v) ∈ ps /\ dict_update d ps !! k = Some v.
Proof.
  induction ps as [|[k' v'] ps IH] using rev_ind; [set_solver|].
  rewrite fmap_app, elem_of_app, dict_update_snoc. simpl. intros Hk.
  destruct (decide (k' = k)) as [->|Hne].
  - exists v'. rewrite lookup_insert_eq. set_solver.
  - rewrite lookup_insert_ne by done.
    destruct Hk as [Hk|Hk]; [|set_solver].
    destruct (IH Hk) as (v & Hv & Hl). exists v. set_solver.
Qed.

Lemma dict_update_lookup_Some d ps k v :
  dict_update d ps !! k = Some v -> (k, v) ∈ ps \/ ((k ∉ ps.*1) /\ d !! k = Some v).
Proof.
  intros Hl. destruct (decide (k ∈ ps.*1)) as [Hk|Hk].
  - destruct (dict_update_lookup_present d ps k Hk) as (v' & Hv' & Hl').
    left. congruence.
  - right. by rewrite dict_update_lookup_absent in Hl.
Qed.

Lemma elem_of_cleaned_pairs {casing : Str.Casing} k v vars :
  (k, v) ∈ cleaned_pairs vars <-> v ∈ vars /\ k = clean v.
Proof.
  unfold cleaned_pairs. rewrite list_elem_of_fmap. split.
  - intros (x & [= -> ->] & Hx). done.
  - intros [Hv ->]. by exists v.
Qed.

Lemma elem_of_cleaned_keys {casing : Str.Casing} k vars :
  k ∈ (cleaned_pairs vars).*1 <-> exists v, v ∈ vars /\ k = clean v.
Proof.
  rewrite list_elem_of_fmap. split.
  - intros ([k' v] & -> & H%elem_of_cleaned_pairs). exists v. naive_solver.
  - intros (v & Hv & ->). exists (clean v, v). split; [done|].
    by apply elem_of_cleaned_pairs.
Qed.

Lemma elem_of_iterate (it : Iteration) X v : v ∈ it X <-> v ∈ X.
Proof. by rewrite (iterate_perm it X), elem_of_elements. Qed.

(** An entry of a freshly built index. *)
Lemma build_index_lookup_Some {casing : Str.Casing} it names k v :
  build_index it names !! k = Some v -> clean v = k /\ v ∈ names.
Proof.
  unfold build_index. intros [H|[_ H]]%dict_update_lookup_Some; [|done].
  apply elem_of_cleaned_pairs in H as [H ->]. by apply elem_of_iterate in H.
Qed.

Lemma build_index_covers {casing : Str.Casing} it names v :
  v ∈ names -> is_Some (build_index it names !! clean v).
Proof.
  intros Hv. unfold build_index.
  destruct (dict_update_lookup_present ∅ (cleaned_pairs (it names)) (clean v))
    as (v' & _ & ->); [|done].
  apply elem_of_cleaned_keys. exists v. by rewrite elem_of_iterate.
Qed.

(** *** What the registry operations compute *)

Lemma cleaned_to_env_run {casing : Str.Casing} it st :
  cleaned_to_env it st = (Ok (index_of it st), after_cleaned_to_env it st).
Proof.
  destruct st as [e [names|] a [d|]]; reflexivity.
Qed.

Lemma reload_run {casing : Str.Casing} {V} it (env : gmap string V) st :
  reload it env st = (Ok tt, after_reload it (dom env) st).
Proof.
  destruct st as [e [names|] [|] [d|]]; reflexivity.
Qed.

Lemma reload_default_run {casing : Str.Casing} it st :
  reload_default it st = (Ok tt, after_reload it (dom (environ st)) st).
Proof. unfold reload_default, bind, get. apply reload_run. Qed.

Lemma names_of_after_reload {casing : Str.Casing} it keys st :
  names_of (after_reload it keys st) = names_of st ∪ keys.
Proof.
  unfold after_reload, names_of at 1; simpl.
  apply set_eq. intros x. rewrite !elem_of_union, elem_of_difference.
  destruct (decide (x ∈ names_of st)); tauto.
Qed.

(** *** Dicts in insertion order *)

Lemma dict_get_dict_set_eq {V} k (v : V) (d : dict V) :
  dict_get k (dict_set k v d) = Some v.
Proof.
  induction d as [|[k' v'] d IH]; simpl.
  - by rewrite String.eqb_refl.
  - destruct (String.eqb k' k) eqn:Hk; simpl.
    + by rewrite String.eqb_refl.
    + by rewrite Hk.
Qed.

Lemma dict_get_dict_set_ne {V} k k' (v : V) (d : dict V) :
  k ≠ k' -> dict_get k (dict_set k' v d) = dict_get k d.
Proof.
  intros Hne. induction d as [|[k0 v0] d IH]; simpl.
  - destruct (String.eqb_spec k' k); [congruence|done].
  - destruct (String.eqb_spec k0 k'); simpl.
    + subst k0. destruct (String.eqb_spec k' k); [congruence|done].
    + destruct (String.eqb k0 k); [done|apply IH].
Qed.

Lemma dict_get_is_Some {V} k (d : dict V) :
  is_Some (dict_get k d) <-> k ∈ keys d.
Proof.
  unfold keys. induction d as [|[k' v'] d IH]; simpl.
  - split; [by intros [? ?]|by intros ?%elem_of_nil].
  - rewrite elem_of_cons. destruct (String.eqb_spec k' k) as [->|Hne].
    + split; eauto.
    + rewrite IH. naive_solver.
Qed.

Lemma dict_get_None {V} k (d : dict V) :
  dict_get k d = None <-> k ∉ keys d.
Proof. rewrite <- dict_get_is_Some, eq_None_not_Some. done. Qed.

Lemma dict_set_fresh {V} k (v : V) (d : dict V) :
  k ∉ keys d -> dict_set k v d = (d ++ [(k, v)])%list.
Proof.
  unfold keys. induction d as [|[k' v'] d IH]; simpl; [done|].
  rewrite not_elem_of_cons. intros [Hne Hk].
  destruct (String.eqb_spec k' k); [congruence|]. by rewrite IH.
Qed.

Lemma dict_get_app_fresh {V} k (v : V) (p s : dict V) :
  k ∉ keys p -> dict_get k (p ++ (k, v) :: s)%list = Some v.
Proof.
  unfold keys. induction p as [|[k' v'] p IH]; simpl.
  - by rewrite String.eqb_refl.
  - rewrite not_elem_of_cons. intros [Hne Hk].
    destruct (String.eqb_spec k' k); [congruence|]. by apply IH.
Qed.

Lemma dict_get_foldl_set {V} (d : dict V) ks env k :
  dict_get k
    (foldl (fun acc k =>
              match dict_get k d with
              | Some v => dict_set k v acc
              | None => acc
              end) env ks) =
    if bool_decide (k ∈ ks)
    then match dict_get k d with
         | Some v => Some v
         | None => dict_get k env
         end
    else dict_get k env.
Proof.
  revert env. induction ks as [|k0 ks IH]; intros env; [done|].
  simpl. rewrite IH.
  destruct (decide (k = k0)) as [->|Hne].
  - rewrite (bool_decide_eq_true_2 (k0 ∈ k0 :: ks)) by set_solver.
    destruct (dict_get k0 d) as [v|] eqn:Hk0.
    + rewrite dict_get_dict_set_eq. by case_bool_decide.
    + by case_bool_decide.
  - assert (Hin : bool_decide (k ∈ k0 :: ks) = bool_decide (k ∈ ks)).
    { apply bool_decide_ext. set_solver. }
    rewrite Hin.
    destruct (dict_get k0 d) as [v0|]; [|done].
    by rewrite dict_get_dict_set_ne.
Qed.

Lemma dict_get_ordered_update {V} (env d : dict V) k :
  dict_get k (ordered_update env d) =
    match dict_get k d with
    | Some v => Some v
    | None => dict_get k env
    end.
Proof.
  unfold ordered_update. rewrite dict_get_foldl_set.
  case_bool_decide as Hk; [done|].
  apply dict_get_None in Hk. by rewrite Hk.
Qed.

Lemma foldl_set_NoDup {V} (p s : dict V) :
  NoDup (keys (p ++ s)%list) ->
  foldl (fun acc k =>
           match dict_get k (p ++ s)%list with
           | Some v => dict_set k v acc
           | None => acc
           end) p (keys s) = (p ++ s)%list.
Proof.
  revert p. induction s as [|[k v] s IH]; intros p Hnd; simpl.
  - by rewrite app_nil_r.
  - assert (Hk : k ∉ keys p).
    { unfold keys in *. rewrite map_app in Hnd. simpl in Hnd.
      apply NoDup_app in Hnd as (_ & Hdisj & _).
      intros Hin. apply (Hdisj k Hin). set_solver. }
    rewrite dict_get_app_fresh by done. rewrite dict_set_fresh by done.
    specialize (IH (p ++ [(k, v)])%list).
    rewrite <- app_assoc in IH. simpl in IH. by apply IH.
Qed.

Lemma ordered_update_nil {V} (d : dict V) :
  NoDup (keys d) -> ordered_update [] d = d.
Proof. intros Hnd. by apply (foldl_set_NoDup [] d). Qed.

(** *** Writing a mapping into the live environment *)

Lemma set_environ_environ st : set_environ (environ st) st = st.
Proof. by destruct st. Qed.

Lemma environ_update_loop_run {casing : Str.Casing} os d ks st :
  environ_update_loop os d ks st =
    ((environ_written os d ks (environ st)).1,
     set_environ (environ_written os d ks (environ st)).2 st).
Proof.
  revert st. induction ks as [|k ks IH]; intros st; simpl.
  - by rewrite set_environ_environ.
  - destruct (dict_get k d) as [[v|]|]; simpl.
    + unfold bind, environ_setitem, modify. rewrite IH. done.
    + unfold raise. by rewrite set_environ_environ.
    + unfold raise. by rewrite set_environ_environ.
Qed.

Lemma reload_dict_run {casing : Str.Casing} {V} it (d : dict V) st :
  reload_dict it d st = (Ok tt, after_reload it (key_set d) st).
Proof.
  unfold reload_dict. rewrite reload_run.
  by rewrite dom_list_to_map_L.
Qed.

Lemma update_with_dotenv_run {casing : Str.Casing} os it df files d st :
  update_with_dotenv os it df files (Some d) st =
    ((environ_written os d (keys d) (environ st)).1,
     set_environ (environ_written os d (keys d) (environ st)).2
       (after_reload it (key_set d) st)).
Proof.
  unfold update_with_dotenv, bind, ret. rewrite reload_dict_run.
  unfold environ_update. by rewrite environ_update_loop_run.
Qed.

Lemma update_with_dotenv_state {casing : Str.Casing} os it df files values st :
  (update_with_dotenv os it df files values st).2 = st \/
  exists e keys,
    (update_with_dotenv os it df files values st).2
      = set_environ e (after_reload it keys st).
Proof.
  destruct values as [d|].
  - right. rewrite update_with_dotenv_run. eauto.
  - destruct files as [f|[|]|l];
      try (right; apply (f_equal snd (update_with_dotenv_run os it df _ _ st))
           || fail).
    + right. eexists _, _.
      exact (f_equal snd (update_with_dotenv_run os it df (OneFile f) _ st)).
    + right. eexists _, _.
      exact (f_equal snd
               (update_with_dotenv_run os it df (BoolFile true) _ st)).
    + by left.
    + right. eexists _, _.
      exact (f_equal snd (update_with_dotenv_run os it df (Files l) _ st)).
Qed.

(** C4. For every input mapping, the set returned by [Env.var_names]
    after [Env.reload] contains the set returned before it: no name
    known before is dropped, whatever the mapping given to [reload]
    holds (the default argument, the live environment, included) and
    however the live environment changed in between. *)
Theorem reload_monotonic {casing : Str.Casing}
    {V} (it : Iteration) (env : gmap string V)
    (live : gmap string string) (st : State) :
  exists before st1 st2 after st3,
    var_names st = (Ok before, st1) /\
    reload it env (set_environ live st1) = (Ok tt, st2) /\
    var_names st2 = (Ok after, st3) /\
    before ⊆ after /\
  exists st2' after' st3',
    reload_default it (set_environ live st1) = (Ok tt, st2') /\
    var_names st2' = (Ok after', st3') /\
    before ⊆ after'.
Proof.
  eexists _, _, _, _, _.
  split; [apply var_names_run|].
  split; [apply reload_run|].
  split; [apply var_names_run|].
  rewrite names_of_after_reload.
  rewrite names_of_set_environ, names_of_set_var_names_cache by (simpl; eauto).
  split; [set_solver|].
  eexists _, _, _.
  split; [apply reload_default_run|].
  split; [apply var_names_run|].
  rewrite names_of_after_reload.
  rewrite names_of_set_environ, names_of_set_var_names_cache by (simpl; eauto).
  set_solver.
Qed.

(** *** The cleaned index stays consistent with the names *)

Lemma index_consistent_fresh {casing : Str.Casing}
    e : index_consistent (fresh e).
Proof. reflexivity. Qed.

Lemma index_consistent_set_environ {casing : Str.Casing} e st :
  index_consistent st -> index_consistent (set_environ e st).
Proof. destruct st as [e0 names a [d|]]; done. Qed.

Lemma index_consistent_var_names {casing : Str.Casing} st :
  index_consistent st ->
  index_consistent (set_var_names_cache (names_of st) st).
Proof.
  destruct st as [e names a [d|]]; [|done].
  intros (Ha & n & Hn & H). simpl in *. subst names. simpl.
  split; [done|]. by exists n.
Qed.

Lemma index_consistent_after_cleaned {casing : Str.Casing} it st :
  index_consistent st -> index_consistent (after_cleaned_to_env it st).
Proof.
  destruct st as [e names a [d|]]; [done|]. intros _.
  unfold after_cleaned_to_env, index_consistent; simpl.
  split; [done|]. eexists. split; [done|]. split.
  - apply build_index_lookup_Some.
  - apply build_index_covers.
Qed.

Lemma index_consistent_after_reload {casing : Str.Casing} it keys st :
  index_consistent st -> index_consistent (after_reload it keys st).
Proof.
  destruct st as [e names a [d|]]; unfold index_consistent; simpl.
  - intros (-> & n & -> & Hent & Hcov). unfold after_reload, names_of; simpl.
    split; [done|]. eexists. split; [done|]. split.
    + intros k v [H|[_ H]]%dict_update_lookup_Some.
      * apply elem_of_cleaned_pairs in H as [H ->].
        apply elem_of_iterate in H. set_solver.
      * destruct (Hent k v H). set_solver.
    + intros v Hv.
      destruct (decide (clean v ∈ (cleaned_pairs (it (keys ∖ n))).*1)) as [Hk|Hk].
      * destruct (dict_update_lookup_present d _ _ Hk) as (v' & _ & ->). done.
      * rewrite dict_update_lookup_absent by done.
        apply Hcov. apply elem_of_union in Hv as [Hv|Hv]; [done|].
        exfalso. apply Hk, elem_of_cleaned_keys. exists v.
        by rewrite elem_of_iterate.
  - intros ->. done.
Qed.

Lemma reachable_index_consistent {casing : Str.Casing} it st :
  reachable it st -> index_consistent st.
Proof.
  induction 1.
  - apply index_consistent_fresh.
  - by apply index_consistent_set_environ.
  - rewrite var_names_run. by apply index_consistent_var_names.
  - rewrite cleaned_to_env_run. by apply index_consistent_after_cleaned.
  - rewrite reload_run. by apply index_consistent_after_reload.
  - destruct (update_with_dotenv_state os_name it df files values st)
      as [->|(e & ks & ->)]; [done|].
    by apply index_consistent_set_environ, index_consistent_after_reload.
Qed.

(** *** The frame of [Env.reload] *)

(** C10, as the code has it. [Env.reload] returns normally and changes
    only the cached name set, which becomes the known names together
    with the keys of the mapping, and, when the cleaned index has been
    built, the cleaned index; the live environment is left alone, and
    the values of the mapping are not read: putting other values under
    its keys changes nothing of the effect. An entry of the cleaned
    index is left as it was unless a
    newly seen name has the same cleaned form; in that case the entry
    is replaced by such a new name (the last one written wins). *)
Theorem reload_frame {casing : Str.Casing}
    {V} (it : Iteration) (env : gmap string V) (st : State) :
  exists st',
    reload it env st = (Ok tt, st') /\
    environ st' = environ st /\
    var_names_cache st' = Some (names_of st ∪ dom env) /\
    accessed_cleaned_to_env st' = accessed_cleaned_to_env st /\
    (accessed_cleaned_to_env st = false ->
       cleaned_to_env_cache st' = cleaned_to_env_cache st) /\
    (forall d,
       accessed_cleaned_to_env st = true ->
       cleaned_to_env_cache st = Some d ->
       exists d',
         cleaned_to_env_cache st' = Some d' /\
         forall k,
           ((forall v, v ∈ dom env ∖ names_of st -> clean v ≠ k) ->
              d' !! k = d !! k) /\
           ((exists v, v ∈ dom env ∖ names_of st /\ clean v = k) ->
              exists v, v ∈ dom env ∖ names_of st /\ clean v = k /\
                        d' !! k = Some v)) /\
    (forall V' (g : V -> V'), reload it (g <$> env) st = reload it env st).
Proof.
  exists (after_reload it (dom env) st).
  split; [apply reload_run|].
  split; [done|].
  split.
  { change (var_names_cache (after_reload it (dom env) st))
      with (Some (names_of st ∪ dom env ∖ names_of st)).
    f_equal. rewrite <- (names_of_after_reload it (dom env) st). done. }
  split; [done|].
  split.
  { intros Ha. unfold after_reload; simpl. by rewrite Ha. }
  split.
  { intros d Ha Hd. unfold after_reload; simpl. rewrite Ha, Hd.
    eexists. split; [done|]. intros k. split.
    - intros Hno. apply dict_update_lookup_absent.
      intros (v & Hv & ->)%elem_of_cleaned_keys.
      apply elem_of_iterate in Hv. by apply (Hno v).
    - intros (v & Hv & <-).
      destruct (dict_update_lookup_present d
                  (cleaned_pairs (it (dom env ∖ names_of st))) (clean v))
        as (v' & Hv' & Hl).
      { apply elem_of_cleaned_keys. exists v. by rewrite elem_of_iterate. }
      apply elem_of_cleaned_pairs in Hv' as [Hv' Hc].
      apply elem_of_iterate in Hv'. by exists v'. }
  intros V' g. by rewrite !reload_run, dom_fmap_L.
Qed.

(** An instance of the frame of [reload]: the index was built over
    [MYVAR], and [MY_VAR] arrives through [reload]. *)
Lemma reload_frame_witness :
  exists st',
    reload sorted_iteration ({[ "MY_VAR" := "b" ]} : gmap string string)
      (cleaned_to_env sorted_iteration (fresh {[ "MYVAR" := "a" ]})).2
      = (Ok tt, st') /\
    environ st' = {[ "MYVAR" := "a" ]} /\
    accessed_cleaned_to_env st' = true.
Proof.
  destruct (reload_frame sorted_iteration
              ({[ "MY_VAR" := "b" ]} : gmap string string)
              (cleaned_to_env sorted_iteration (fresh {[ "MYVAR" := "a" ]})).2)
    as (st' & Hrun & Henv & _ & Hacc & _).
  exists st'. split; [exact Hrun|]. split; [exact Henv | exact Hacc].
Defined.

(** C10 as stated fails: [reload] replaces the entry of the cleaned
    index that belongs to the name [MYVAR], known before, when the new
    name [MY_VAR] has the same cleaned form. *)
Lemma reload_overwrites_index_entry :
  let st := (cleaned_to_env sorted_iteration (fresh {[ "MYVAR" := "a" ]})).2 in
  let st' := (reload sorted_iteration
                ({[ "MY_VAR" := "b" ]} : gmap string string) st).2 in
  "MYVAR" ∈ names_of st /\
  index_of sorted_iteration st !! "myvar" = Some "MYVAR" /\
  index_of sorted_iteration st' !! "myvar" = Some "MY_VAR" /\
  index_of sorted_iteration st' !! "myvar"
    ≠ index_of sorted_iteration st !! "myvar".
Proof.
  cbv zeta. split; [by vm_compute|]. split; [by vm_compute|].
  split; [by vm_compute|]. by vm_compute.
Qed.

(** *** Merging a dotenv mapping *)












(** ** The lookups *)

Lemma first_known_nil names : first_known names [] = None.
Proof. reflexivity. Qed.

Lemma first_known_cons names v l :
  first_known names (v :: l) =
    if decide (v ∈ names) then Some v else first_known names l.
Proof.
  unfold first_known. simpl. case_decide; [done|].
  rewrite <- option_fmap_compose. by destruct (list_find _ l) as [[i x]|].
Qed.

Lemma first_known_Some names l v :
  first_known names l = Some v -> v ∈ l /\ v ∈ names.
Proof.
  unfold first_known. destruct (list_find _ l) as [[i x]|] eqn:H; [|done].
  intros [= <-]. apply list_find_Some in H as (Hl & Hx & _).
  split; [|done]. by eapply list_elem_of_lookup_2.
Qed.

Lemma first_known_None names l :
  first_known names l = None <-> forall v, v ∈ l -> v ∉ names.
Proof.
  unfold first_known. rewrite fmap_None, list_find_None, Forall_forall. done.
Qed.

Lemma names_of_with_names_cached st :
  names_of (with_names_cached st) = names_of st.
Proof. reflexivity. Qed.

Lemma with_names_cached_idem st :
  with_names_cached (with_names_cached st) = with_names_cached st.
Proof. reflexivity. Qed.

Lemma live_value_with_names_cached st v :
  live_value (with_names_cached st) v = live_value st v.
Proof. reflexivity. Qed.

Lemma environ_getitem_run v st :
  bind (environ_getitem v) (fun x => ret (Value x)) st = (live_value st v, st).
Proof.
  cbv [bind environ_getitem get live_value ret raise].
  by destruct (environ st !! v).
Qed.

Lemma return_if_known_run v otherwise st :
  return_if_known v otherwise st =
    if decide (v ∈ names_of st)
    then (live_value st v, with_names_cached st)
    else otherwise (with_names_cached st).
Proof.
  unfold return_if_known. unfold bind at 1. rewrite var_names_run.
  fold (with_names_cached st). case_decide; [|done].
  by rewrite environ_getitem_run.
Qed.

Lemma lookup_exact_loop_run norm l st :
  lookup_exact_loop norm l st =
    (first_hit st (map norm l),
     match l with [] => st | _ => with_names_cached st end).
Proof.
  revert st. induction l as [|v l IH]; intros st; [done|].
  cbn [lookup_exact_loop map]. rewrite return_if_known_run.
  unfold first_hit. rewrite first_known_cons.
  case_decide; [done|]. rewrite IH. unfold first_hit.
  rewrite names_of_with_names_cached. f_equal. by destruct l.
Qed.

Lemma try_cleaned_run {casing : Str.Casing} it key st :
  try_cleaned it key st = (cleaned_hit it st key, after_cleaned_to_env it st).
Proof.
  unfold try_cleaned. unfold bind at 1. rewrite cleaned_to_env_run.
  unfold cleaned_hit. destruct (index_of it st !! clean key) as [v|]; [|done].
  rewrite environ_getitem_run. f_equal.
  unfold live_value, after_cleaned_to_env.
  by destruct (cleaned_to_env_cache st).
Qed.

Lemma cleaned_hit_with_names_cached {casing : Str.Casing} it st key :
  cleaned_hit it (with_names_cached st) key = cleaned_hit it st key.
Proof. reflexivity. Qed.

(** *** The cleaned index of a consistent state *)

Lemma names_of_consistent {casing : Str.Casing} st d :
  index_consistent st -> cleaned_to_env_cache st = Some d ->
  var_names_cache st = Some (names_of st).
Proof.
  unfold index_consistent. intros H Hd. rewrite Hd in H.
  destruct H as (_ & n & Hn & _). unfold names_of. by rewrite Hn.
Qed.

Lemma index_of_entry {casing : Str.Casing} it st k v :
  index_consistent st -> index_of it st !! k = Some v ->
  clean v = k /\ v ∈ names_of st.
Proof.
  unfold index_consistent, index_of.
  destruct (cleaned_to_env_cache st) as [d|].
  - intros (_ & n & Hn & Hent & _) Hk. unfold names_of. rewrite Hn. eauto.
  - intros _. apply build_index_lookup_Some.
Qed.

Lemma index_of_covers {casing : Str.Casing} it st v :
  index_consistent st -> v ∈ names_of st ->
  is_Some (index_of it st !! clean v).
Proof.
  unfold index_consistent, index_of.
  destruct (cleaned_to_env_cache st) as [d|].
  - intros (_ & n & Hn & _ & Hcov). unfold names_of. rewrite Hn. eauto.
  - intros _. apply build_index_covers.
Qed.

(** *** Exact lookup *)

Lemma lookup_exact_run {casing : Str.Casing} os_name var st :
  (lookup_exact os_name var st).1 =
    first_hit st (map (platform_name os_name) (names_to_try var)).
Proof.
  unfold lookup_exact, platform_name.
  destruct (String.eqb os_name "nt"), var as [s|l];
    rewrite ?return_if_known_run, ?lookup_exact_loop_run; simpl;
    unfold first_hit; rewrite ?first_known_cons, ?first_known_nil;
    try case_decide; done.
Qed.

Lemma lookup_exact_environ {casing : Str.Casing} os_name var st :
  environ (lookup_exact os_name var st).2 = environ st.
Proof.
  unfold lookup_exact.
  destruct (String.eqb os_name "nt"), var as [s|l];
    rewrite ?return_if_known_run, ?lookup_exact_loop_run;
    try case_decide; try done; by destruct l.
Qed.

(** C5. [lookup_exact] depends on the platform: where names are kept in
    upper case ([os.name] is [nt]) every input name, the single string
    or each element of the sequence, is upper-cased before it is
    compared with the known names, elsewhere it is compared as it is;
    the names are tried in the order given and the result is the live
    value of the first one that is known, [MISSING] when none is; the
    live environment is not changed. So on [nt] the input [foo] with
    [FOO=bar] gives [bar]; elsewhere [Foo] with [Foo=bar] gives [bar]
    and [Foo] with only [FOO=bar] gives [MISSING]. *)
Theorem lookup_exact_first_match {casing : Str.Casing}
    (os_name : string) (var : StrCollection)
    (st : State) :
  (lookup_exact os_name var st).1 =
    first_hit st (map (platform_name os_name) (names_to_try var)) /\
  environ (lookup_exact os_name var st).2 = environ st /\
  (lookup_exact (casing := ascii_casing) "nt" (Single "foo")
     (fresh {[ "FOO" := "bar" ]})).1
    = Ok (Value "bar") /\
  (lookup_exact (casing := ascii_casing) "nt" (Collection ["x"; "foo"])
     (fresh {[ "FOO" := "bar" ]})).1
    = Ok (Value "bar") /\
  (lookup_exact "posix" (Single "Foo") (fresh {[ "Foo" := "bar" ]})).1
    = Ok (Value "bar") /\
  (lookup_exact "posix" (Single "Foo") (fresh {[ "FOO" := "bar" ]})).1
    = Ok MISSING /\
  (lookup_exact "posix" (Collection ["A"; "B"; "C"])
     (fresh {[ "B" := "1"; "C" := "2" ]})).1
    = Ok (Value "1").
Proof.
  split; [apply lookup_exact_run|].
  split; [apply lookup_exact_environ|]. by vm_compute.
Qed.

(** *** The cleaned-index fallback *)

(** C7. In every state the process can be in, [try_cleaned] cleans the
    field name it is given, looks the cleaned key up in the cleaned
    index and returns the live value of the name found there, which is
    a known name with the same cleaned form as the field name; it
    returns [MISSING] when the index has no entry for the cleaned key,
    which is when no known name has that cleaned form. So the field
    [my-env-var] with [MYENVVAR=z] gives [z]. *)
Theorem try_cleaned_spec {casing : Str.Casing}
    (it : Iteration) (key : string) (st : State)
    (Hst : reachable it st) :
  (try_cleaned it key st).1 =
    match index_of it st !! clean key with
    | Some v => live_value st v
    | None => Ok MISSING
    end /\
  (forall v, index_of it st !! clean key = Some v ->
     v ∈ names_of st /\ clean v = clean key) /\
  (index_of it st !! clean key = None <->
     forall v, v ∈ names_of st -> clean v ≠ clean key) /\
  (try_cleaned (casing := ascii_casing) it "my-env-var"
     (fresh {[ "MYENVVAR" := "z" ]})).1
    = Ok (Value "z").
Proof.
  apply reachable_index_consistent in Hst.
  split; [by rewrite try_cleaned_run|].
  split; [|split].
  - intros v Hv. by destruct (index_of_entry it st _ _ Hst Hv).
  - split.
    + intros Hnone v Hv Hc.
      destruct (index_of_covers it st v Hst Hv) as [v' Hv'].
      rewrite Hc in Hv'. congruence.
    + intros Hno. destruct (index_of it st !! clean key) as [v|] eqn:Hv; [|done].
      destruct (index_of_entry it st _ _ Hst Hv) as [Hc Hn]. by destruct (Hno v).
  - rewrite try_cleaned_run. unfold cleaned_hit. cbn [fst].
    set (st0 := fresh {[ "MYENVVAR" := "z" ]}).
    assert (Hin : "MYENVVAR" ∈ names_of st0) by (by vm_compute).
    destruct (index_of_covers (casing := ascii_casing) it st0 "MYENVVAR"
                (index_consistent_fresh _) Hin) as [v Hv].
    change (clean (casing := ascii_casing) "my-env-var")
      with (clean (casing := ascii_casing) "MYENVVAR").
    rewrite Hv.
    apply index_of_entry in Hv as [_ Hv]; [|apply index_consistent_fresh].
    assert (v = "MYENVVAR") as ->.
    { revert Hv. unfold st0, names_of, fresh; simpl.
      rewrite dom_singleton_L. by intros ->%elem_of_singleton. }
    reflexivity.
Qed.

(** An instance: the state in which the index has been built over
    [MYENVVAR]. *)
Lemma try_cleaned_spec_witness :
  let st := (cleaned_to_env sorted_iteration
               (fresh {[ "MYENVVAR" := "z" ]})).2 in
  reachable sorted_iteration st /\
  (try_cleaned sorted_iteration "my-env-var" st).1 = Ok (Value "z").
Proof.
  cbv zeta.
  assert (Hst : reachable sorted_iteration
            (cleaned_to_env sorted_iteration
               (fresh {[ "MYENVVAR" := "z" ]})).2)
    by apply reachable_cleaned_to_env, reachable_fresh.
  split; [exact Hst|].
  destruct (try_cleaned_spec sorted_iteration "my-env-var" _ Hst) as (H & _).
  rewrite H. reflexivity.
Defined.

(** *** The pascal/camel-first strategy *)

(** C6. [with_pascal_or_camel_case], for a field name whose snake-cased
    form is in lower case, tries in this order the field name, the
    snake-cased form in upper case and the snake-cased form in lower
    case, and returns the live value of the first that is a known name;
    when none is, it returns what [try_cleaned] returns for the field
    name. So, [myEnvVar] being snake-cased to [my_env_var], the field
    [myEnvVar] with only [MY_ENV_VAR=y] set gives [y]. *)
Theorem with_pascal_or_camel_case_order {casing : Str.Casing} (it : Iteration)
    (to_snake_case : string -> string) (field_name : string) (st : State)
    (Hlower : Str.lower (to_snake_case field_name) = to_snake_case field_name) :
  with_pascal_or_camel_case it to_snake_case field_name st =
    match first_known (names_of st)
            (pascal_or_camel_candidates to_snake_case field_name) with
    | Some v => (live_value st v, with_names_cached st)
    | None => try_cleaned it field_name (with_names_cached st)
    end /\
  (to_snake_case "myEnvVar" = "my_env_var" ->
   (with_pascal_or_camel_case (casing := ascii_casing) it to_snake_case
      "myEnvVar" (fresh {[ "MY_ENV_VAR" := "y" ]})).1 = Ok (Value "y")).
Proof.
  split.
  - unfold with_pascal_or_camel_case, pascal_or_camel_candidates.
    rewrite Hlower. rewrite !first_known_cons, first_known_nil.
    rewrite return_if_known_run. case_decide; [done|].
    rewrite return_if_known_run, names_of_with_names_cached.
    case_decide; [done|].
    rewrite return_if_known_run.
    rewrite !with_names_cached_idem, names_of_with_names_cached.
    case_decide; done.
  - intros Hsnake. unfold with_pascal_or_camel_case. rewrite Hsnake.
    rewrite return_if_known_run. case_decide as H1; [by vm_compute in H1|].
    rewrite return_if_known_run. case_decide as H2; [done|].
    exfalso. apply H2. by vm_compute.
Qed.

(** An instance, with the snake-casing that the specification
    describes. *)
Lemma with_pascal_or_camel_case_order_witness :
  Str.lower (to_snake_case_spec "myEnvVar") = to_snake_case_spec "myEnvVar" /\
  (with_pascal_or_camel_case sorted_iteration to_snake_case_spec "myEnvVar"
     (fresh {[ "MY_ENV_VAR" := "y" ]})).1 = Ok (Value "y").
Proof.
  split; [reflexivity|].
  apply (with_pascal_or_camel_case_order sorted_iteration to_snake_case_spec
           "myEnvVar" (fresh {[ "MY_ENV_VAR" := "y" ]})); reflexivity.
Defined.

(** *** Names that are cached but no longer live *)

Lemma with_screaming_snake_case_run {casing : Str.Casing} it f st :
  (with_screaming_snake_case it f st).1 =
    match first_known (names_of st) [Str.upper f; f] with
    | Some v => live_value st v
    | None => cleaned_hit it st f
    end.
Proof.
  unfold with_screaming_snake_case.
  rewrite !first_known_cons, first_known_nil.
  rewrite return_if_known_run. case_decide; [done|].
  rewrite return_if_known_run, names_of_with_names_cached.
  case_decide; [done|]. by rewrite try_cleaned_run.
Qed.

Lemma with_snake_case_run {casing : Str.Casing} it f st :
  (with_snake_case it f st).1 =
    match first_known (names_of st) [f; Str.upper f] with
    | Some v => live_value st v
    | None => cleaned_hit it st f
    end.
Proof.
  unfold with_snake_case.
  rewrite !first_known_cons, first_known_nil.
  rewrite return_if_known_run. case_decide; [done|].
  rewrite return_if_known_run, names_of_with_names_cached.
  case_decide; [done|]. by rewrite try_cleaned_run.
Qed.

Lemma with_pascal_or_camel_case_run {casing : Str.Casing} it snake f st :
  (with_pascal_or_camel_case it snake f st).1 =
    match first_known (names_of st) [f; Str.upper (snake f); snake f] with
    | Some v => live_value st v
    | None => cleaned_hit it st f
    end.
Proof.
  unfold with_pascal_or_camel_case.
  rewrite !first_known_cons, first_known_nil.
  rewrite return_if_known_run. case_decide; [done|].
  rewrite return_if_known_run, names_of_with_names_cached.
  case_decide; [done|].
  rewrite return_if_known_run.
  rewrite !with_names_cached_idem, names_of_with_names_cached.
  case_decide; [done|]. by rewrite try_cleaned_run.
Qed.

Lemma live_value_known st v :
  v ∈ dom (environ st) -> exists x, live_value st v = Ok (Value x).
Proof.
  intros [x Hx]%elem_of_dom. exists x. unfold live_value. by rewrite Hx.
Qed.

Lemma first_known_or_hit st l (fallback : outcome result) :
  names_of st ⊆ dom (environ st) ->
  (exists r, fallback = Ok r) ->
  exists r,
    match first_known (names_of st) l with
    | Some v => live_value st v
    | None => fallback
    end = Ok r.
Proof.
  intros Hsub Hfb. destruct (first_known _ l) as [v|] eqn:Hv; [|done].
  apply first_known_Some in Hv as [_ Hv].
  destruct (live_value_known st v) as [x Hx]; eauto.
Qed.

Lemma cleaned_hit_returns {casing : Str.Casing} it st key :
  index_consistent st -> names_of st ⊆ dom (environ st) ->
  exists r, cleaned_hit it st key = Ok r.
Proof.
  intros Hst Hsub. unfold cleaned_hit.
  destruct (index_of it st !! clean key) as [v|] eqn:Hv; [|eauto].
  apply index_of_entry in Hv as [_ Hv]; [|done].
  destruct (live_value_known st v) as [x Hx]; eauto.
Qed.

(** X5. While every cached name is still in the live environment, no
    lookup raises: each returns a value or [MISSING]. *)
Lemma lookups_return_while_names_live {casing : Str.Casing}
    it os_name snake st :
  reachable it st -> names_of st ⊆ dom (environ st) ->
  (forall var, exists r, (lookup_exact os_name var st).1 = Ok r) /\
  (forall f, exists r, (try_cleaned it f st).1 = Ok r) /\
  (forall f, exists r, (with_screaming_snake_case it f st).1 = Ok r) /\
  (forall f, exists r, (with_snake_case it f st).1 = Ok r) /\
  (forall f, exists r, (with_pascal_or_camel_case it snake f st).1 = Ok r).
Proof.
  intros Hst%reachable_index_consistent Hsub. repeat split; intros x.
  - rewrite lookup_exact_run. unfold first_hit.
    by apply first_known_or_hit; eauto.
  - rewrite try_cleaned_run. by apply cleaned_hit_returns.
  - rewrite with_screaming_snake_case_run.
    by apply first_known_or_hit, cleaned_hit_returns.
  - rewrite with_snake_case_run.
    by apply first_known_or_hit, cleaned_hit_returns.
  - rewrite with_pascal_or_camel_case_run.
    by apply first_known_or_hit, cleaned_hit_returns.
Qed.

(** C2 fails on the code. [FOO] is read into the cache of names and
    then removed from the live environment; the state is one the
    process can be in. Every lookup that reaches the name [FOO] then
    raises [KeyError] from [environ[...]], where the claim, and the
    docstrings of [try_cleaned] and [lookup_exact], have [MISSING]. *)
Theorem lookups_raise_on_stale_name :
  let st := set_environ ∅ (var_names (fresh {[ "FOO" := "bar" ]})).2 in
  reachable sorted_iteration st /\
  names_of st = {[ "FOO" ]} /\
  environ st = ∅ /\
  (lookup_exact "posix" (Single "FOO") st).1 = Raise (KeyError "FOO") /\
  (lookup_exact "posix" (Collection ["A"; "FOO"]) st).1
    = Raise (KeyError "FOO") /\
  (lookup_exact "nt" (Single "foo") st).1 = Raise (KeyError "FOO") /\
  (try_cleaned sorted_iteration "foo" st).1 = Raise (KeyError "FOO") /\
  (with_screaming_snake_case sorted_iteration "foo" st).1
    = Raise (KeyError "FOO") /\
  (with_snake_case sorted_iteration "foo" st).1 = Raise (KeyError "FOO") /\
  (with_pascal_or_camel_case sorted_iteration to_snake_case_spec "foo" st).1
    = Raise (KeyError "FOO").
Proof.
  cbv zeta. split.
  { apply reachable_environ, reachable_var_names, reachable_fresh. }
  split; [by vm_compute|].
  repeat split; by vm_compute.
Qed.

(** ** The diagnostics *)

Section ErrorFacts.

Context {PyObj : Type} `{Runtime PyObj}.

Lemma dict_set_idem {V} k (v : V) (d : dict V) :
  dict_set k v (dict_set k v d) = dict_set k v d.
Proof.
  induction d as [|[k' v'] d IH]; simpl.
  - by rewrite String.eqb_refl.
  - destruct (String.eqb k' k) eqn:Hk; simpl.
    + by rewrite String.eqb_refl.
    + by rewrite Hk, IH.
Qed.

Lemma elem_of_dict_set {V} k (v : V) (d : dict V) : (k, v) ∈ dict_set k v d.
Proof.
  induction d as [|[k' v'] d IH]; simpl; [set_solver|].
  destruct (String.eqb k' k); set_solver.
Qed.

Lemma elem_of_dict_set_other {V} k (v : V) k' (v' : V) (d : dict V) :
  k ≠ k' -> (k, v) ∈ d -> (k, v) ∈ dict_set k' v' d.
Proof.
  intros Hne. induction d as [|[k0 v0] d IH]; simpl; [set_solver|].
  destruct (String.eqb_spec k0 k'); set_solver.
Qed.

Lemma str_in_elem_of s l : str_in s l = true <-> s ∈ l.
Proof.
  unfold str_in. rewrite existsb_exists, list_elem_of_In. split.
  - by intros (x & Hx & ->%String.eqb_eq).
  - intros Hs. exists s. by rewrite String.eqb_refl.
Qed.

Lemma str_in_not_elem_of s l : str_in s l = false <-> s ∉ l.
Proof.
  rewrite <- str_in_elem_of. by destruct (str_in s l).
Qed.

(** *** Repeated calls of [message] *)

Lemma ParseError_message_again (e : ParseError PyObj) :
  ParseError_message (ParseError_message e).2 = ParseError_message e.
Proof.
  destruct e as [o ot at_ be kw cn dcn fn [j|]]; [|done].
  unfold ParseError_message; simpl.
  destruct (py_truthy j) eqn:Hj; simpl; rewrite ?Hj; [|done].
  unfold pe_set_kwargs; simpl. by rewrite dict_set_idem.
Qed.

Lemma message_again (e : JSONWizardError PyObj) :
  message (message e).2 = message e.
Proof.
  destruct e as [e| | | | |]; try done.
  cbn [message]. pose proof (ParseError_message_again e) as Hagain.
  destruct (ParseError_message e) as [msg e'] eqn:He.
  cbn [snd message] in *. by rewrite Hagain.
Qed.

Lemma message_after_0 (e : JSONWizardError PyObj) n :
  message_after n e = message_after 0 e.
Proof.
  unfold message_after. induction n as [|n IH]; [done|].
  simpl in *. by rewrite message_again.
Qed.

(** C8. For every diagnostic error object, [message] is stable: the
    call that follows any number of earlier calls on the object
    returns the same text as the call that follows any other number
    of them, so calling [message] twice gives the same string twice;
    and as an object is determined by the inputs of its constructor,
    two objects built from equal inputs give equal messages, however
    often [message] was read on either. *)
Theorem message_stable (e : JSONWizardError PyObj) (n m : nat) :
  message_after n e = message_after m e /\
  (message (message e).2).1 = (message e).1 /\
  (message e).1 = (__str__ e).1.
Proof.
  split; [|split].
  - by rewrite (message_after_0 e n), (message_after_0 e m).
  - by rewrite message_again.
  - done.
Qed.

End ErrorFacts.

(** *** Missing fields and the key-transform hint *)

Section MissingFieldsFacts.

Context {PyObj : Type} `{Runtime PyObj}.

Lemma elem_of_missing_fields_of name fields (cls_fields : list (Field PyObj)) :
  name ∈ missing_fields_of fields cls_fields <->
  exists f : Field PyObj,
    f ∈ cls_fields /\ f_name f = name /\
    f_default f = None /\ f_default_factory f = None /\
    name ∉ fields.
Proof.
  unfold missing_fields_of. rewrite list_elem_of_fmap. split.
  - intros (f & -> & Hf). apply list_elem_of_In, filter_In in Hf as [Hf Hc].
    apply andb_prop in Hc as [[Hin%negb_true_iff Hd]%andb_prop Hdf].
    exists f. rewrite list_elem_of_In. repeat split; try done.
    + by destruct (f_default f).
    + by destruct (f_default_factory f).
    + by apply str_in_not_elem_of.
  - intros (f & Hf & <- & Hd & Hdf & Hin). exists f. split; [done|].
    apply list_elem_of_In, filter_In. split; [by apply list_elem_of_In|].
    rewrite Hd, Hdf. apply str_in_not_elem_of in Hin. by rewrite Hin.
Qed.

Lemma transform_suspected_true obj (missing : list string) :
  Forall (fun name => name ≠ EmptyString) missing ->
  transform_suspected obj missing = true <->
  exists f k, f ∈ missing /\ k ∈ keys obj /\ normalize f = normalize k.
Proof.
  intros Hne. unfold transform_suspected.
  destruct (List.find _ missing) as [f|] eqn:Hfind.
  - apply find_some in Hfind as [Hf Hin]. apply list_elem_of_In in Hf.
    apply str_in_elem_of, list_elem_of_fmap in Hin as (k & Hk & Hin).
    split.
    + intros _. by exists f, k.
    + intros _. rewrite Forall_forall in Hne. specialize (Hne f Hf).
      by destruct f.
  - split; [done|]. intros (f & k & Hf & Hk & Heq).
    apply list_elem_of_In in Hf.
    pose proof (find_none _ _ Hfind f Hf) as Hno. simpl in Hno.
    apply str_in_not_elem_of in Hno. exfalso. apply Hno.
    rewrite Heq. by apply list_elem_of_fmap_2.
Qed.

(** C3, as the code has it. For declared fields with non-empty names,
    [MissingFields] reports as missing exactly the declared fields that
    have neither a default nor a default factory and whose name is not
    one of the supplied keyword names, compared as they are written;
    the key-transform entry and the pointer to the documentation are
    added to [kwargs], and so printed at the end of the message, if and
    only if some missing field has the normalized form of some key of
    the input object. For the keyword [myEnvVar] and the required
    fields [my_env_var] and [other], whose normalized forms collide
    with the keyword for the first, it reports both [my_env_var] and
    [other] missing and adds the hint. *)
Theorem MissingFields_init_spec (base_err : PyObj) (obj : dict PyObj)
    (cls : PyObj) (cls_kwargs : dict PyObj) (cls_fields : list (Field PyObj))
    (kwargs : dict (value PyObj))
    (Hnames : Forall (fun f => f_name f ≠ EmptyString) cls_fields) :
  let e := MissingFields_init base_err obj cls cls_kwargs cls_fields kwargs in
  let collides :=
    exists f k, f ∈ mf_missing_fields e /\ k ∈ keys obj /\
                normalize f = normalize k in
  (forall name,
     name ∈ mf_missing_fields e <->
     exists f : Field PyObj,
       f ∈ cls_fields /\ f_name f = name /\
       f_default f = None /\ f_default_factory f = None /\
       name ∉ keys cls_kwargs) /\
  (collides -> mf_kwargs e = add_transform_hint cls kwargs) /\
  (~ collides -> mf_kwargs e = kwargs) /\
  ("key transform", Text (key_transform_name cls ++ "()"))
    ∈ add_transform_hint cls kwargs /\
  ("resolution", Text resolution_text) ∈ add_transform_hint cls kwargs /\
  MissingFields_message e =
    MissingFields_headline e ++ kwargs_tail str_value (mf_kwargs e) /\
  (normalize "myEnvVar" = normalize "my_env_var" ->
   forall v,
     let e' := MissingFields_init base_err [("myEnvVar", v)] cls
                 [("myEnvVar", v)]
                 [mkField "my_env_var" None None; mkField "other" None None]
                 kwargs in
     mf_missing_fields e' = ["my_env_var"; "other"] /\
     mf_kwargs e' = add_transform_hint cls kwargs).
Proof.
  intros e collides.
  assert (Hmissing : Forall (fun name => name ≠ EmptyString) (mf_missing_fields e)).
  { apply Forall_forall. intros name Hname.
    apply elem_of_missing_fields_of in Hname as (f & Hf & <- & _).
    rewrite Forall_forall in Hnames. by apply Hnames. }
  pose proof (transform_suspected_true obj _ Hmissing) as Hsusp.
  split; [intros name; apply elem_of_missing_fields_of|].
  split; [|split].
  - intros Hc. apply Hsusp in Hc. unfold e, MissingFields_init in *.
    simpl in *. by rewrite Hc.
  - intros Hc. unfold e, MissingFields_init in *. simpl in *.
    destruct (transform_suspected _ _); [|done].
    destruct Hc. by apply Hsusp.
  - split; [|split; [|split]].
    + apply elem_of_dict_set_other; [done|]. apply elem_of_dict_set.
    + apply elem_of_dict_set.
    + done.
    + intros Hnorm v e'. split; [done|].
      unfold e', MissingFields_init, transform_suspected; simpl.
      rewrite Hnorm, String.eqb_refl. done.
Qed.

End MissingFieldsFacts.

(** An instance of the report, in the sample runtime. *)
Lemma MissingFields_init_spec_witness :
  let e := MissingFields_init (SExc "missing arguments")
             [("myEnvVar", SInt 1)] (SClass "C") [("myEnvVar", SInt 1)]
             [mkField "my_env_var" None None; mkField "other" None None] [] in
  Forall (fun f : Field sample_obj => f_name f ≠ EmptyString)
    [mkField "my_env_var" None None; mkField "other" None None] /\
  mf_missing_fields e = ["my_env_var"; "other"] /\
  mf_kwargs e = add_transform_hint (SClass "C") [].
Proof.
  assert (Hnames : Forall (fun f : Field sample_obj => f_name f ≠ EmptyString)
            [mkField (PyObj := sample_obj) "my_env_var" None None;
             mkField "other" None None])
    by (repeat constructor; discriminate).
  split; [exact Hnames|].
  destruct (MissingFields_init_spec (SExc "missing arguments")
              [("myEnvVar", SInt 1)] (SClass "C") [("myEnvVar", SInt 1)]
              [mkField "my_env_var" None None; mkField "other" None None] []
              Hnames)
    as (_ & _ & _ & _ & _ & _ & Hex).
  apply (Hex eq_refl (SInt 1)).
Defined.

(** C3 as stated fails on its example. With [myEnvVar] as the supplied
    keyword and as the key of the input object, the missing fields are
    [my_env_var] and [other], not [other] alone. Had the keyword been
    [my_env_var], [other] alone would be missing, and then no hint is
    added: no reading of the example gives both. *)
Lemma MissingFields_example_reports_both :
  let cls_fields :=
    [mkField (PyObj := sample_obj) "my_env_var" None None;
     mkField "other" None None] in
  let e := MissingFields_init (SExc "missing arguments")
             [("myEnvVar", SInt 1)] (SClass "C") [("myEnvVar", SInt 1)]
             cls_fields [] in
  let e' := MissingFields_init (SExc "missing arguments")
              [("myEnvVar", SInt 1)] (SClass "C") [("my_env_var", SInt 1)]
              cls_fields [] in
  mf_missing_fields e = ["my_env_var"; "other"] /\
  mf_missing_fields e ≠ ["other"] /\
  mf_kwargs e = add_transform_hint (SClass "C") [] /\
  mf_missing_fields e' = ["other"] /\
  mf_kwargs e' = [].
Proof.
  cbv zeta. repeat split; by vm_compute.
Qed.

(** ** Further properties of the lookups *)

(** *** Upper case and the cleaned form *)

Lemma upper_char_hyphen c :
  Ascii.eqb (Str.upper_char c) "-" = Ascii.eqb c "-".
Proof. by destruct c as [[] [] [] [] [] [] [] []]. Qed.

Lemma upper_char_underscore c :
  Ascii.eqb (Str.upper_char c) "_" = Ascii.eqb c "_".
Proof. by destruct c as [[] [] [] [] [] [] [] []]. Qed.

Lemma lower_upper_char c : Str.lower_char (Str.upper_char c) = Str.lower_char c.
Proof. by destruct c as [[] [] [] [] [] [] [] []]. Qed.

Lemma remove_hyphen_ascii_upper s :
  Str.remove_char "-" (Str.ascii_upper s)
    = Str.ascii_upper (Str.remove_char "-" s).
Proof.
  induction s as [|c s IH]; simpl; [done|].
  rewrite upper_char_hyphen. destruct (Ascii.eqb c "-"); simpl; by rewrite IH.
Qed.

Lemma remove_underscore_ascii_upper s :
  Str.remove_char "_" (Str.ascii_upper s)
    = Str.ascii_upper (Str.remove_char "_" s).
Proof.
  induction s as [|c s IH]; simpl; [done|].
  rewrite upper_char_underscore.
  destruct (Ascii.eqb c "_"); simpl; by rewrite IH.
Qed.

Lemma ascii_lower_upper s :
  Str.ascii_lower (Str.ascii_upper s) = Str.ascii_lower s.
Proof.
  induction s as [|c s IH]; simpl; [done|]. by rewrite lower_upper_char, IH.
Qed.

(** With the casing of the ASCII letters, upper-casing a name does not
    change its cleaned form. *)
Lemma ascii_clean_upper s :
  clean (casing := ascii_casing) (Str.upper s) = clean s.
Proof.
  unfold clean. simpl.
  by rewrite remove_hyphen_ascii_upper, remove_underscore_ascii_upper,
    ascii_lower_upper.
Qed.

Lemma live_value_not_MISSING st v : live_value st v ≠ Ok MISSING.
Proof. unfold live_value. by destruct (environ st !! v). Qed.

(** *** The two snake-case strategies *)

(** X1. [with_screaming_snake_case] tries the upper-cased field name,
    then the field name as given, and returns the live value of the
    first that is a known name; when neither is, it returns what
    [try_cleaned] returns for the field name. The live environment is
    never changed. *)
Theorem with_screaming_snake_case_order {casing : Str.Casing}
    (it : Iteration) (field_name : string)
    (st : State) :
  with_screaming_snake_case it field_name st =
    match first_known (names_of st) [Str.upper field_name; field_name] with
    | Some v => (live_value st v, with_names_cached st)
    | None => try_cleaned it field_name (with_names_cached st)
    end /\
  environ (with_screaming_snake_case it field_name st).2 = environ st.
Proof.
  assert (Heq : with_screaming_snake_case it field_name st =
    match first_known (names_of st) [Str.upper field_name; field_name] with
    | Some v => (live_value st v, with_names_cached st)
    | None => try_cleaned it field_name (with_names_cached st)
    end).
  { unfold with_screaming_snake_case.
    rewrite !first_known_cons, first_known_nil.
    rewrite return_if_known_run. case_decide; [done|].
    rewrite return_if_known_run, names_of_with_names_cached.
    rewrite !with_names_cached_idem. case_decide; done. }
  split; [done|]. rewrite Heq.
  destruct (first_known _ _); [done|].
  rewrite try_cleaned_run. simpl. unfold after_cleaned_to_env. simpl.
  by destruct (cleaned_to_env_cache st).
Qed.

(** X2. [with_snake_case] tries the field name as given, then the
    upper-cased field name, and returns the live value of the first
    that is a known name; when neither is, it returns what
    [try_cleaned] returns for the field name. The live environment is
    never changed. *)
Theorem with_snake_case_order {casing : Str.Casing}
    (it : Iteration) (field_name : string)
    (st : State) :
  with_snake_case it field_name st =
    match first_known (names_of st) [field_name; Str.upper field_name] with
    | Some v => (live_value st v, with_names_cached st)
    | None => try_cleaned it field_name (with_names_cached st)
    end /\
  environ (with_snake_case it field_name st).2 = environ st.
Proof.
  assert (Heq : with_snake_case it field_name st =
    match first_known (names_of st) [field_name; Str.upper field_name] with
    | Some v => (live_value st v, with_names_cached st)
    | None => try_cleaned it field_name (with_names_cached st)
    end).
  { unfold with_snake_case.
    rewrite !first_known_cons, first_known_nil.
    rewrite return_if_known_run. case_decide; [done|].
    rewrite return_if_known_run, names_of_with_names_cached.
    rewrite !with_names_cached_idem. case_decide; done. }
  split; [done|]. rewrite Heq.
  destruct (first_known _ _); [done|].
  rewrite try_cleaned_run. simpl. unfold after_cleaned_to_env. simpl.
  by destruct (cleaned_to_env_cache st).
Qed.

(** X3. The two snake-case strategies return the same result unless the
    field name and its upper-cased form are both known names: only then
    does the order of the first two candidates matter. *)
Theorem snake_strategies_agree {casing : Str.Casing}
    (it : Iteration) (field_name : string)
    (st : State)
    (Hone : ~ (field_name ∈ names_of st /\ Str.upper field_name ∈ names_of st)) :
  (with_snake_case it field_name st).1 =
    (with_screaming_snake_case it field_name st).1.
Proof.
  rewrite with_snake_case_run, with_screaming_snake_case_run.
  rewrite !first_known_cons, first_known_nil.
  repeat case_decide; try done. destruct Hone. done.
Qed.

Lemma snake_strategies_agree_witness :
  let st := fresh {[ "my_env_var" := "x" ]} in
  ~ ("my_env_var" ∈ names_of st /\ Str.upper "my_env_var" ∈ names_of st) /\
  (with_snake_case sorted_iteration "my_env_var" st).1 =
    (with_screaming_snake_case sorted_iteration "my_env_var" st).1.
Proof.
  cbv zeta.
  assert (H : ~ ("my_env_var" ∈ names_of (fresh {[ "my_env_var" := "x" ]}) /\
                 Str.upper "my_env_var"
                   ∈ names_of (fresh {[ "my_env_var" := "x" ]}))).
  { intros [_ H]. by vm_compute in H. }
  split; [exact H|].
  exact (snake_strategies_agree sorted_iteration "my_env_var" _ H).
Defined.

(** X4. In a state the process can be in, for a field name whose
    upper-cased form has the same cleaned form as the field name itself
    (as every name of ASCII characters has), each snake-case strategy
    returns [MISSING] exactly when no known name has the cleaned form
    of the field name: a known name that differs from such a field name
    only in letter case, hyphens and underscores is always reached. *)
Theorem snake_strategies_missing {casing : Str.Casing} (it : Iteration)
    (field_name : string) (st : State) (Hst : reachable it st)
    (Hupper : clean (Str.upper field_name) = clean field_name) :
  ((with_screaming_snake_case it field_name st).1 = Ok MISSING <->
     forall v, v ∈ names_of st -> clean v ≠ clean field_name) /\
  ((with_snake_case it field_name st).1 = Ok MISSING <->
     forall v, v ∈ names_of st -> clean v ≠ clean field_name).
Proof.
  apply reachable_index_consistent in Hst.
  assert (Hcleaned : cleaned_hit it st field_name = Ok MISSING <->
            forall v, v ∈ names_of st -> clean v ≠ clean field_name).
  { unfold cleaned_hit. split.
    - intros Hm v Hv Hc.
      destruct (index_of_covers it st v Hst Hv) as [v' Hv'].
      rewrite Hc in Hv'. rewrite Hv' in Hm. by apply live_value_not_MISSING in Hm.
    - intros Hno.
      destruct (index_of it st !! clean field_name) as [v|] eqn:Hv; [|done].
      destruct (index_of_entry it st _ _ Hst Hv) as [Hc Hn]. by destruct (Hno v). }
  rewrite with_screaming_snake_case_run, with_snake_case_run.
  rewrite !first_known_cons, first_known_nil.
  split; (split;
    [ intros Hm; repeat case_decide;
      try (by apply live_value_not_MISSING in Hm); by apply Hcleaned
    | intros Hno; repeat case_decide;
      try (by apply Hcleaned);
      exfalso;
      first [ by apply (Hno field_name)
            | by apply (Hno (Str.upper field_name)) ] ]).
Qed.

Lemma snake_strategies_missing_witness :
  let st := fresh {[ "MY-ENV-VAR" := "x" ]} in
  reachable sorted_iteration st /\
  clean (Str.upper "my_env_var") = clean "my_env_var" /\
  ((with_screaming_snake_case sorted_iteration "my_env_var" st).1 = Ok MISSING <->
     forall v, v ∈ names_of st -> clean v ≠ clean "my_env_var").
Proof.
  cbv zeta.
  assert (Hst : reachable sorted_iteration (fresh {[ "MY-ENV-VAR" := "x" ]}))
    by apply reachable_fresh.
  assert (Hupper : clean (Str.upper "my_env_var") = clean "my_env_var")
    by reflexivity.
  split; [exact Hst|]. split; [exact Hupper|].
  exact (proj1 (snake_strategies_missing sorted_iteration "my_env_var" _
                  Hst Hupper)).
Defined.

(** *** Lookups while the cache and the environment agree *)

(** An instance of [lookups_return_while_names_live]: nothing read yet,
    so the known names are the live ones. *)
Lemma lookups_return_while_names_live_witness :
  let st := fresh {[ "FOO" := "bar" ]} in
  reachable sorted_iteration st /\
  names_of st ⊆ dom (environ st) /\
  exists r, (try_cleaned sorted_iteration "f-o-o" st).1 = Ok r.
Proof.
  cbv zeta.
  assert (Hst : reachable sorted_iteration (fresh {[ "FOO" := "bar" ]}))
    by apply reachable_fresh.
  assert (Hsub : names_of (fresh {[ "FOO" := "bar" ]})
                   ⊆ dom (environ (fresh {[ "FOO" := "bar" ]})))
    by reflexivity.
  split; [exact Hst|]. split; [exact Hsub|].
  destruct (lookups_return_while_names_live sorted_iteration "posix" id _
              Hst Hsub) as (_ & Htry & _).
  exact (Htry "f-o-o").
Defined.






(** X8. A variable that enters the live environment after the names
    were cached is not found by [lookup_exact], whatever its value,
    until the names are refreshed: after [Env.reload()] it is. *)
Theorem added_variable_needs_reload {casing : Str.Casing}
    (it : Iteration) (os_name k v : string)
    (names : gset string) (st : State)
    (Hcache : var_names_cache st = Some names)
    (Hnew : k ∉ names)
    (Hos : platform_name os_name k = k) :
  let st1 := set_environ (<[k := v]> (environ st)) st in
  (lookup_exact os_name (Single k) st1).1 = Ok MISSING /\
  (lookup_exact os_name (Single k) (reload_default it st1).2).1
    = Ok (Value v).
Proof.
  intros st1.
  assert (Hn1 : names_of st1 = names).
  { unfold st1, names_of. simpl. by rewrite Hcache. }
  split.
  - rewrite lookup_exact_run. simpl. rewrite Hos.
    unfold first_hit. rewrite first_known_cons, first_known_nil, Hn1.
    by case_decide.
  - rewrite reload_default_run. simpl. rewrite lookup_exact_run. simpl.
    rewrite Hos. unfold first_hit.
    rewrite first_known_cons, names_of_after_reload.
    case_decide as Hin.
    + unfold live_value, after_reload, st1. simpl.
      by rewrite lookup_insert_eq.
    + destruct Hin. apply elem_of_union_r. unfold st1. simpl.
      rewrite dom_insert_L. set_solver.
Qed.

Lemma added_variable_needs_reload_witness :
  let st := (var_names (fresh {[ "OLD" := "1" ]})).2 in
  var_names_cache st = Some (dom ({[ "OLD" := "1" ]} : gmap string string)) /\
  (lookup_exact "posix" (Single "NEW")
     (set_environ (<[ "NEW" := "2" ]> (environ st)) st)).1 = Ok MISSING.
Proof.
  cbv zeta. split; [reflexivity|].
  apply (added_variable_needs_reload sorted_iteration "posix" "NEW" "2"
           (dom ({[ "OLD" := "1" ]} : gmap string string))
           (var_names (fresh {[ "OLD" := "1" ]})).2).
  - reflexivity.
  - intros H. by vm_compute in H.
  - reflexivity.
Defined.

(** *** The cleaned index *)

(** X9. In every state the process can be in, the cleaned index agrees
    with the known names: each entry maps the cleaned form of a known
    name to that name, each known name finds under its cleaned form a
    known name of the same cleaned form, and the flag
    [_accessed_cleaned_to_env] is set exactly when the index has been
    built. *)
Theorem cleaned_index_invariant {casing : Str.Casing}
    (it : Iteration) (st : State)
    (Hst : reachable it st) :
  (forall k v, index_of it st !! k = Some v -> clean v = k /\ v ∈ names_of st) /\
  (forall v, v ∈ names_of st ->
     exists v', index_of it st !! clean v = Some v' /\
                clean v' = clean v /\ v' ∈ names_of st) /\
  (accessed_cleaned_to_env st = true <-> is_Some (cleaned_to_env_cache st)).
Proof.
  apply reachable_index_consistent in Hst.
  split; [|split].
  - intros k v. by apply index_of_entry.
  - intros v Hv. destruct (index_of_covers it st v Hst Hv) as [v' Hv'].
    exists v'. split; [done|]. by apply (index_of_entry it st).
  - unfold index_consistent in Hst.
    destruct (cleaned_to_env_cache st) as [d|].
    + destruct Hst as [-> _]. split; eauto.
    + rewrite Hst. split; [done|]. by intros [? ?].
Qed.

Lemma cleaned_index_invariant_witness :
  let st := (reload sorted_iteration ({[ "My_Var" := "b" ]} : gmap string string)
               (cleaned_to_env sorted_iteration
                  (fresh {[ "MYVAR" := "a" ]})).2).2 in
  reachable sorted_iteration st /\
  (accessed_cleaned_to_env st = true <-> is_Some (cleaned_to_env_cache st)).
Proof.
  cbv zeta.
  assert (Hst : reachable sorted_iteration
            (reload sorted_iteration ({[ "My_Var" := "b" ]} : gmap string string)
               (cleaned_to_env sorted_iteration
                  (fresh {[ "MYVAR" := "a" ]})).2).2)
    by apply reachable_reload, reachable_cleaned_to_env, reachable_fresh.
  split; [exact Hst|].
  exact (proj2 (proj2 (cleaned_index_invariant sorted_iteration _ Hst))).
Defined.

(** X10. In a state the process can be in, [try_cleaned] finds a live
    known name from any spelling of it: when the field name has the
    cleaned form of a known name, no other known name has that cleaned
    form, and the name is live, the result is its live value. *)
Theorem try_cleaned_finds_unique {casing : Str.Casing}
    (it : Iteration) (key v x : string)
    (st : State) (Hst : reachable it st)
    (Hv : v ∈ names_of st)
    (Hclean : clean key = clean v)
    (Hunique : forall v', v' ∈ names_of st -> clean v' = clean v -> v' = v)
    (Hlive : environ st !! v = Some x) :
  (try_cleaned it key st).1 = Ok (Value x).
Proof.
  apply reachable_index_consistent in Hst.
  rewrite try_cleaned_run. simpl. unfold cleaned_hit. rewrite Hclean.
  destruct (index_of_covers it st v Hst Hv) as [v' Hv']. rewrite Hv'.
  apply index_of_entry in Hv' as [Hc Hn]; [|done].
  rewrite (Hunique v' Hn Hc). unfold live_value. by rewrite Hlive.
Qed.

Lemma try_cleaned_finds_unique_witness :
  (try_cleaned sorted_iteration "my-env-var"
     (fresh {[ "MY_ENV_VAR" := "z" ]})).1 = Ok (Value "z").
Proof.
  apply (try_cleaned_finds_unique sorted_iteration "my-env-var" "MY_ENV_VAR" "z"
           (fresh {[ "MY_ENV_VAR" := "z" ]})).
  - apply reachable_fresh.
  - by vm_compute.
  - reflexivity.
  - intros v' Hv' _. revert Hv'. unfold names_of, fresh. simpl.
    rewrite dom_singleton_L. by intros ->%elem_of_singleton.
  - reflexivity.
Defined.

Lemma iterate_empty (it : Iteration) : it ∅ = [].
Proof.
  apply Permutation_nil_r. rewrite (iterate_perm it ∅). by rewrite elements_empty.
Qed.

Lemma after_reload_idem {casing : Str.Casing} it keys st :
  after_reload it keys (after_reload it keys st) = after_reload it keys st.
Proof.
  assert (Hnames : forall n : gset string,
            n ∪ keys ∖ n ∪ keys ∖ (n ∪ keys ∖ n) = n ∪ keys ∖ n).
  { intros n. apply set_eq. intros x.
    rewrite !elem_of_union, !elem_of_difference, !elem_of_union,
      !elem_of_difference. tauto. }
  assert (Hnone : forall n : gset string, keys ∖ (n ∪ keys ∖ n) = ∅).
  { intros n. apply set_eq. intros x.
    rewrite elem_of_difference, elem_of_union, elem_of_difference,
      elem_of_empty. destruct (decide (x ∈ n)); tauto. }
  destruct st as [e names a c]. unfold after_reload. simpl.
  remember (names_of (mkState e names a c)) as n eqn:Hn. clear Hn.
  unfold names_of. simpl.
  rewrite Hnames, Hnone, iterate_empty. simpl.
  by destruct a.
Qed.

(** X11. [Env.reload] is idempotent: a second call with the same
    mapping returns normally and leaves the state exactly as the first
    call left it. *)
Theorem reload_idempotent {casing : Str.Casing}
    {V} (it : Iteration) (env : gmap string V)
    (st : State) :
  reload it env (reload it env st).2 = (Ok tt, (reload it env st).2).
Proof.
  rewrite !reload_run. simpl. by rewrite after_reload_idem.
Qed.

Lemma cleaned_pairs_snoc {casing : Str.Casing} l v :
  cleaned_pairs (l ++ [v])%list = (cleaned_pairs l ++ [(clean v, v)])%list.
Proof. unfold cleaned_pairs. by rewrite map_app. Qed.

Lemma dict_update_cleaned_last {casing : Str.Casing} d l k :
  dict_update d (cleaned_pairs l) !! k =
    match last (filter (fun v => clean v = k) l) with
    | Some v => Some v
    | None => d !! k
    end.
Proof.
  induction l as [|v l IH] using rev_ind; [done|].
  rewrite cleaned_pairs_snoc, dict_update_snoc, filter_app.
  destruct (decide (clean v = k)) as [Hk|Hk].
  - rewrite filter_cons_True, filter_nil by done.
    rewrite last_snoc. subst k. by rewrite lookup_insert_eq.
  - rewrite filter_cons_False, filter_nil by done.
    rewrite app_nil_r, lookup_insert_ne by done. apply IH.
Qed.

(** X12. When [Env.cleaned_to_env] is first read, the index holds under
    each cleaned key the last name, in the order in which the set of
    names is iterated, that has this cleaned form, and nothing under a
    key that no name has: of several names that differ only in case,
    hyphens and underscores, the one iterated last is kept. [Env.reload]
    writes the new names over the index in the same way. *)
Theorem cleaned_to_env_last_wins {casing : Str.Casing}
    {V} (it : Iteration) (st : State) (k : string)
    (d : gmap string string) (env : gmap string V) :
  (cleaned_to_env_cache st = None ->
   exists idx st',
     cleaned_to_env it st = (Ok idx, st') /\
     idx !! k = last (filter (fun v => clean v = k) (it (names_of st)))) /\
  (cleaned_to_env_cache st = Some d -> accessed_cleaned_to_env st = true ->
   exists st' idx,
     reload it env st = (Ok tt, st') /\
     cleaned_to_env_cache st' = Some idx /\
     idx !! k =
       match last (filter (fun v => clean v = k)
                     (it (dom env ∖ names_of st))) with
       | Some v => Some v
       | None => d !! k
       end).
Proof.
  split.
  - intros Hnone. eexists _, _. split; [apply cleaned_to_env_run|].
    unfold index_of. rewrite Hnone. unfold build_index.
    rewrite dict_update_cleaned_last.
    by destruct (last _).
  - intros Hd Ha. eexists _, _. split; [apply reload_run|].
    unfold after_reload. simpl. rewrite Ha, Hd. split; [done|].
    apply dict_update_cleaned_last.
Qed.

Lemma cleaned_to_env_last_wins_witness :
  exists idx st',
    cleaned_to_env sorted_iteration (fresh {[ "MYVAR" := "a"; "MY_VAR" := "b" ]})
      = (Ok idx, st') /\
    idx !! "myvar"
      = last (filter (fun v => clean v = "myvar")
                (sorted_iteration
                   (names_of (fresh {[ "MYVAR" := "a"; "MY_VAR" := "b" ]})))).
Proof.
  apply (proj1 (cleaned_to_env_last_wins sorted_iteration
                  (fresh {[ "MYVAR" := "a"; "MY_VAR" := "b" ]}) "myvar"
                  ∅ (∅ : gmap string string))).
  reflexivity.
Defined.

(** *** What a lookup leaves behind *)

Lemma observe_with_names_cached {casing : Str.Casing} it st :
  observe it (with_names_cached st) = observe it st.
Proof. reflexivity. Qed.

Lemma observe_after_cleaned_to_env {casing : Str.Casing} it st :
  observe it (after_cleaned_to_env it st) = observe it st.
Proof.
  unfold observe, after_cleaned_to_env, index_of.
  by destruct (cleaned_to_env_cache st) eqn:Hc; simpl; rewrite ?Hc.
Qed.

Lemma observe_try_cleaned {casing : Str.Casing} it key st :
  observe it (try_cleaned it key st).2 = observe it st.
Proof. rewrite try_cleaned_run. apply observe_after_cleaned_to_env. Qed.

Lemma observe_return_if_known {casing : Str.Casing} it v otherwise st :
  (forall st', observe it (otherwise st').2 = observe it st') ->
  observe it (return_if_known v otherwise st).2 = observe it st.
Proof.
  intros Ho. rewrite return_if_known_run. case_decide; [done|].
  by rewrite Ho.
Qed.

Lemma observe_lookup_exact_loop {casing : Str.Casing} it norm l st :
  observe it (lookup_exact_loop norm l st).2 = observe it st.
Proof. rewrite lookup_exact_loop_run. by destruct l. Qed.

Lemma observe_run_lookup {casing : Str.Casing} os it snake c st :
  observe it (run_lookup os it snake c st).2 = observe it st.
Proof.
  destruct c as [var|key|f|f|f]; simpl.
  - unfold lookup_exact.
    destruct (String.eqb os "nt"), var;
      auto using observe_return_if_known, observe_lookup_exact_loop.
  - apply observe_try_cleaned.
  - unfold with_screaming_snake_case.
    auto using observe_return_if_known, observe_try_cleaned.
  - unfold with_snake_case.
    auto using observe_return_if_known, observe_try_cleaned.
  - unfold with_pascal_or_camel_case.
    auto using observe_return_if_known, observe_try_cleaned.
Qed.

Lemma run_lookup_observe {casing : Str.Casing} os it snake c st1 st2 :
  observe it st1 = observe it st2 ->
  (run_lookup os it snake c st1).1 = (run_lookup os it snake c st2).1.
Proof.
  unfold observe. intros [= He Hn Hi].
  assert (Hlive : forall v, live_value st1 v = live_value st2 v).
  { intros v. unfold live_value. by rewrite He. }
  assert (Hcl : forall key, cleaned_hit it st1 key = cleaned_hit it st2 key).
  { intros key. unfold cleaned_hit. rewrite Hi.
    by destruct (index_of it st2 !! clean key). }
  destruct c as [var|key|f|f|f]; simpl.
  - rewrite !lookup_exact_run. unfold first_hit. rewrite Hn.
    destruct (first_known _ _); [apply Hlive | done].
  - rewrite !try_cleaned_run. apply Hcl.
  - rewrite !with_screaming_snake_case_run, Hn.
    destruct (first_known _ _); [apply Hlive | apply Hcl].
  - rewrite !with_snake_case_run, Hn.
    destruct (first_known _ _); [apply Hlive | apply Hcl].
  - rewrite !with_pascal_or_camel_case_run, Hn.
    destruct (first_known _ _); [apply Hlive | apply Hcl].
Qed.

(** X13. A lookup only fills caches: it leaves the live environment,
    the known names and the cleaned index as they were. So the result
    of a lookup is not changed by any lookup made before it, and asking
    twice gives the same answer. *)
Theorem lookups_read_only {casing : Str.Casing}
    (os_name : string) (it : Iteration)
    (to_snake_case : string -> string) (c1 c2 : lookup_call) (st : State) :
  observe it (run_lookup os_name it to_snake_case c1 st).2 = observe it st /\
  (run_lookup os_name it to_snake_case c2
     (run_lookup os_name it to_snake_case c1 st).2).1 =
    (run_lookup os_name it to_snake_case c2 st).1.
Proof.
  split; [apply observe_run_lookup|].
  apply run_lookup_observe, observe_run_lookup.
Qed.

(** *** More on exact lookup *)

Lemma first_known_app names l1 l2 :
  first_known names (l1 ++ l2) =
    match first_known names l1 with
    | Some v => Some v
    | None => first_known names l2
    end.
Proof.
  induction l1 as [|v l1 IH]; [done|].
  change ((v :: l1) ++ l2)%list with (v :: (l1 ++ l2))%list.
  rewrite !first_known_cons. by case_decide.
Qed.

(** X18. Where the platform keeps names in upper case, [lookup_exact]
    does not tell apart inputs that differ only in the case of their
    letters: two names, or two sequences of names, with the same
    upper-cased forms give the same result. *)
Theorem lookup_exact_nt_case_insensitive {casing : Str.Casing}
    (var1 var2 : StrCollection)
    (st : State)
    (Hupper : map Str.upper (names_to_try var1)
                = map Str.upper (names_to_try var2)) :
  (lookup_exact "nt" var1 st).1 = (lookup_exact "nt" var2 st).1.
Proof.
  rewrite !lookup_exact_run.
  change (platform_name "nt") with Str.upper. by rewrite Hupper.
Qed.

Lemma lookup_exact_nt_case_insensitive_witness :
  map Str.upper (names_to_try (Single "Path"))
    = map Str.upper (names_to_try (Collection ["pAtH"])) /\
  (lookup_exact "nt" (Single "Path") (fresh {[ "PATH" := "/bin" ]})).1
    = (lookup_exact "nt" (Collection ["pAtH"]) (fresh {[ "PATH" := "/bin" ]})).1.
Proof.
  split; [reflexivity|].
  apply (lookup_exact_nt_case_insensitive (Single "Path")
           (Collection ["pAtH"]) (fresh {[ "PATH" := "/bin" ]})).
  reflexivity.
Defined.

(** X19. [lookup_exact] on a sequence of names is a search from left to
    right: for two sequences one after the other it returns what it
    returns for the first, unless that is [MISSING], and then what it
    returns for the second. For the empty sequence it returns [MISSING]
    and does not even read the names; a single name gives the same
    result as the sequence of that one name. *)
Theorem lookup_exact_append {casing : Str.Casing}
    (os_name : string) (l1 l2 : list string)
    (s : string) (st : State) :
  (lookup_exact os_name (Collection (l1 ++ l2)) st).1 =
    match (lookup_exact os_name (Collection l1) st).1 with
    | Ok MISSING => (lookup_exact os_name (Collection l2) st).1
    | r => r
    end /\
  lookup_exact os_name (Collection []) st = (Ok MISSING, st) /\
  (lookup_exact os_name (Single s) st).1 =
    (lookup_exact os_name (Collection [s]) st).1.
Proof.
  split; [|split].
  - rewrite !lookup_exact_run. simpl. rewrite map_app.
    unfold first_hit. rewrite first_known_app.
    destruct (first_known _ (map _ l1)) as [v|]; [|done].
    unfold live_value. by destruct (environ st !! v).
  - unfold lookup_exact. by destruct (String.eqb os_name "nt").
  - by rewrite !lookup_exact_run.
Qed.

(** *** Reading dotenv files *)

Lemma dotenv_values_loop_lookup df files (env : Environ) k :
  dict_get k (dotenv_values_loop df files env) =
    match last (omap (fun f => dict_get k (df f)) files) with
    | Some v => Some v
    | None => dict_get k env
    end.
Proof.
  revert env. induction files as [|f files IH]; intros env; [done|].
  simpl. rewrite IH, dict_get_ordered_update.
  destruct (dict_get k (df f)) as [v|] eqn:Hf; simpl.
  - rewrite last_cons. by destruct (last _).
  - done.
Qed.

(** X14. [Env.dotenv_values] never touches the registry. Given a
    sequence of files it returns, for each key, the value of the last
    file of the sequence that defines the key, and nothing for a key
    that no file defines; a single file name gives the variables of
    that file, [True] those of [.env], an empty sequence the empty
    mapping; [False] raises [TypeError], and so does
    [Env.update_with_dotenv] given [False] and no mapping, before it
    changes anything. *)
Theorem dotenv_values_last_file_wins {casing : Str.Casing} (os_name : string)
    (it : Iteration) (dotenv_file : string -> Environ) (l : list string)
    (f : string) (st : State) :
  (exists d,
     dotenv_values dotenv_file (Files l) st = (Ok d, st) /\
     forall k, dict_get k d = last (omap (fun f => dict_get k (dotenv_file f)) l)) /\
  (exists d,
     dotenv_values dotenv_file (OneFile f) st = (Ok d, st) /\
     (forall k, dict_get k d = dict_get k (dotenv_file f)) /\
     (NoDup (keys (dotenv_file f)) -> d = dotenv_file f)) /\
  (exists d,
     dotenv_values dotenv_file (BoolFile true) st = (Ok d, st) /\
     (forall k, dict_get k d = dict_get k (dotenv_file ".env")) /\
     (NoDup (keys (dotenv_file ".env")) -> d = dotenv_file ".env")) /\
  dotenv_values dotenv_file (Files []) st = (Ok [], st) /\
  (exists msg,
     dotenv_values dotenv_file (BoolFile false) st = (Raise (TypeError msg), st) /\
     update_with_dotenv os_name it dotenv_file (BoolFile false) None st
       = (Raise (TypeError msg), st)).
Proof.
  split; [|split; [|split; [|split]]].
  - eexists. split; [reflexivity|]. intros k.
    rewrite dotenv_values_loop_lookup. by destruct (last _).
  - eexists. split; [reflexivity|]. split.
    + intros k. simpl. rewrite dict_get_ordered_update.
      by destruct (dict_get k (dotenv_file f)).
    + apply ordered_update_nil.
  - eexists. split; [reflexivity|]. split.
    + intros k. simpl. rewrite dict_get_ordered_update.
      by destruct (dict_get k (dotenv_file ".env")).
    + apply ordered_update_nil.
  - done.
  - by eexists.
Qed.

(** ** Further properties of the diagnostics *)

Section MoreErrorFacts.

Context {PyObj : Type} `{Runtime PyObj}.

(** X15. Reading [ParseError.message] changes nothing of the error but
    the entry [json_object] of its [kwargs]: every other entry and every
    other attribute stays as it was. When the JSON object of the error
    is [None] or false the error is not changed at all; otherwise the
    entry holds the dumped JSON object afterwards, also when the caller
    had passed a keyword argument of that name. *)
Theorem ParseError_message_frame (e : ParseError PyObj) :
  let e' := (ParseError_message e).2 in
  pe_set_kwargs (pe_kwargs e) e' = e /\
  (forall k, k ≠ "json_object" ->
     dict_get k (pe_kwargs e') = dict_get k (pe_kwargs e)) /\
  (optional_truthy (pe__json_object e) = false -> e' = e) /\
  (forall j, pe__json_object e = Some j -> py_truthy j = true ->
     dict_get "json_object" (pe_kwargs e') = Some (Text (json_dumps j))).
Proof.
  destruct e as [o ot at_ be kw cn dcn fn [j|]]; cbv zeta;
    unfold ParseError_message; simpl; [|by repeat split].
  destruct (py_truthy j) eqn:Hj; simpl.
  - split; [done|]. split; [|split; [done|]].
    + intros k Hk. by apply dict_get_dict_set_ne.
    + intros j' [= <-] _. apply dict_get_dict_set_eq.
  - split; [done|]. split; [done|]. split; [done|].
    intros j' [= <-]. congruence.
Qed.

(** X16. The setters of [ParseError] write once. A class name, once
    set, is kept when it is set again, and so is a field name or a JSON
    object that is not [None]; a class name set on a new error, unless
    it is the empty string, is the one that [class_name] returns, in
    place of the default class given to the constructor. *)
Theorem ParseError_setters_write_once (e : ParseError PyObj)
    (cls1 cls2 : PyObj) (n1 : string) (n2 : option string)
    (j1 : PyObj) (j2 : option PyObj)
    (base_err obj ann_type : PyObj) (default_class : option PyObj)
    (kwargs : dict (value PyObj)) :
  pe_set_class_name cls2 (pe_set_class_name cls1 e)
    = pe_set_class_name cls1 e /\
  pe_set_field_name n2 (pe_set_field_name (Some n1) e)
    = pe_set_field_name (Some n1) e /\
  pe_set_json_object j2 (pe_set_json_object (Some j1) e)
    = pe_set_json_object (Some j1) e /\
  pe_class_name
    (pe_set_class_name cls1
       (ParseError_init base_err obj ann_type default_class n2 j2 kwargs))
    = (if Str.truthy (type_name cls1) then Some (type_name cls1)
       else pe__default_class_name
              (ParseError_init base_err obj ann_type default_class n2 j2
                 kwargs)) /\
  pe__field_name
    (pe_set_field_name n2
       (ParseError_init base_err obj ann_type default_class None j2 kwargs))
    = n2.
Proof.
  destruct e as [o ot at_ be kw [cn|] dcn [fn|] [j|]]; by repeat split.
Qed.

Lemma missing_fields_of_sublist fields (cls_fields : list (Field PyObj)) :
  missing_fields_of fields cls_fields `sublist_of` map f_name cls_fields.
Proof.
  unfold missing_fields_of.
  induction cls_fields as [|f l IH]; simpl; [constructor|].
  destruct (_ && _); simpl; by constructor.
Qed.

(** X17. [MissingFields] lists the missing fields in the order of their
    declaration, each one a declared field that was not supplied. When
    every declared field that has neither a default nor a default
    factory is among the supplied keywords, nothing is reported missing
    and no hint is added, whatever the keys of the input object. *)
Theorem MissingFields_in_declaration_order (base_err : PyObj)
    (obj : dict PyObj) (cls : PyObj) (cls_kwargs : dict PyObj)
    (cls_fields : list (Field PyObj)) (kwargs : dict (value PyObj)) :
  let e := MissingFields_init base_err obj cls cls_kwargs cls_fields kwargs in
  mf_missing_fields e `sublist_of` map f_name cls_fields /\
  mf_fields e = keys cls_kwargs /\
  (forall name, name ∈ mf_missing_fields e -> name ∉ mf_fields e) /\
  ((forall f : Field PyObj,
      f ∈ cls_fields -> f_default f = None -> f_default_factory f = None ->
      f_name f ∈ keys cls_kwargs) ->
   mf_missing_fields e = [] /\ mf_kwargs e = kwargs).
Proof.
  cbv zeta. split; [apply missing_fields_of_sublist|]. split; [done|].
  split.
  - intros name (f & _ & _ & _ & _ & Hin)%elem_of_missing_fields_of. done.
  - intros Hall.
    assert (Hnil : missing_fields_of (keys cls_kwargs) cls_fields = []).
    { apply elem_of_nil_inv. intros name
        (f & Hf & <- & Hd & Hdf & Hin)%elem_of_missing_fields_of.
      by apply Hin, Hall. }
    unfold MissingFields_init. simpl. by rewrite Hnil.
Qed.

End MoreErrorFacts.
